(** * The tile message queue and the socket poll of loolwsd

    A shallow embedding of [loolwsd/MessageQueue.cpp] and of the
    [StreamSocket] / [SocketPoll] classes of [net/Socket.hpp], with the
    properties of the queue policy (deduplication, cancellation, priority,
    reprioritisation) and of the socket life cycle proved over it. *)

From stdpp Require Import base option list gmap strings.
From Stdlib Require Import ZArith Lia Ascii.

Local Open Scope string_scope.
Local Open Scope Z_scope.
Local Open Scope list_scope.

(** ** The [std::string] members the queue policy uses *)

Module CxxString.

(** [std::string::npos] is [None]; a position is [Some]. *)
Definition size_type := option nat.

(** [s.compare(pos, len, t)]: the sign of the lexicographic comparison of
    [s.substr(pos, len)] (clamped at the end of [s]) with [t]. Every call
    in the sources has [pos = 0], which is never past the end of [s]. *)
Definition compare (s : string) (pos len : nat) (t : string) : Z :=
  match String.compare (String.substring pos len s) t with
  | Eq => 0
  | Lt => -1
  | Gt => 1
  end.

(** [s.find(t)]: the first position at which [t] occurs in [s]. *)
Definition find (s t : string) : size_type := String.index 0 t s.

(** [s.substr(pos, n)], where [n] may be [npos]. *)
Definition substr (s : string) (pos : nat) (n : size_type) : string :=
  match n with
  | Some k => String.substring pos k s
  | None => String.substring pos (String.length s - pos) s
  end.

(** [s] ends with [t] (used by the scenarios only). *)
Definition ends_with (s t : string) : Prop :=
  String.substring (String.length s - String.length t) (String.length t) s = t.

End CxxString.

(** ** [MessageQueue.cpp] *)

Module Queue.

(** [MessageQueue::Payload] is a [std::vector<char>]; the policy only ever
    looks at it through [std::string(value.data(), value.size())], the
    same bytes. *)
Abbreviation Payload := string.

(** [struct CursorPosition { int X; int Y; int Width; int Height; }] *)
Record CursorPosition := mkCursor { X : Z; Y : Z; Width : Z; Height : Z }.

(** *** The algorithms of [<algorithm>] on a deque *)

(** The state a moved-from element is left in: valid, but which one is
    up to the element type. *)
Class MoveAssign (A : Type) := moved_from : A -> A.

Section Algorithm.
Context `{MoveAssign A}.
Variable pred : A -> bool.

(** [std::find_if(begin, end, pred) - begin] *)
Fixpoint find_if (q : list A) : nat :=
  match q with
  | [] => 0%nat
  | v :: q' => if pred v then 0%nat else S (find_if q')
  end.

(** The loop of [std::remove_if]: [first] reads, [result] writes, and
    move-assigning the element read to the slot written leaves the
    element read moved from. *)
Fixpoint remove_if_loop (n first result : nat) (q : list A) : list A * nat :=
  match n with
  | O => (q, result)
  | S n' =>
      match q !! first with
      | None => (q, result)
      | Some v =>
          if pred v then remove_if_loop n' (S first) result q
          else remove_if_loop n' (S first) (S result)
                 (<[first := moved_from v]> (<[result := v]> q))
      end
  end.

(** [std::remove_if(q.begin(), q.end(), pred)]: the container afterwards
    and the returned iterator, as an index. The elements that stay are
    moved to the front in their order; what is behind the returned
    iterator is left as the moves leave it. *)
Definition std_remove_if (q : list A) : list A * nat :=
  let first := find_if q in
  if (first =? length q)%nat then (q, first)
  else remove_if_loop (length q) (S first) first q.

(** [q.erase(std::remove_if(q.begin(), q.end(), pred), q.end())] *)
Definition erase_remove_if (q : list A) : list A :=
  let '(q', result) := std_remove_if q in take result q'.
End Algorithm.

(** *** The queue classes *)

(** Modelled from the spec: [TileDesc.hpp] is not among the sources.
    [TileDesc::parse] yields a tile descriptor or a parse error, a
    payload that fails to parse being treated as not intersecting
    anything, and [intersectsWithRect] is a rectangle intersection
    test. The development is parametric in both. *)
Class TileDescriptor (TileDesc : Type) := {
  parse : string -> option TileDesc;
  intersectsWithRect : TileDesc -> Z -> Z -> Z -> Z -> bool
}.

Section TileQueue.
Context `{TileDescriptor TileDesc} `{MoveAssign Payload}.

(** [TileDesc::parse(msg).intersectsWithRect(c.X, c.Y, c.Width, c.Height)] *)
Definition tile_intersects (msg : string) (c : CursorPosition) : bool :=
  match parse msg with
  | Some tile => intersectsWithRect tile (X c) (Y c) (Width c) (Height c)
  | None => false
  end.

(** [_queue] and [_cursorPositions] (a [std::map<int, CursorPosition>]). *)
Record TileQueue := mkTileQueue {
  _queue : list Payload;
  _cursorPositions : gmap Z CursorPosition
}.

(** [MessageQueue::remove_if]: the iterator that [std::remove_if]
    returns is dropped. *)
Definition MessageQueue_remove_if (pred : Payload -> bool)
    (q : list Payload) : list Payload :=
  fst (std_remove_if pred q).

Definition MessageQueue_put_impl (value : Payload) (q : list Payload) :
    list Payload :=
  q ++ [value].

Definition MessageQueue_wait_impl (q : list Payload) : bool :=
  (0 <? length q)%nat.

(** [front()] then [pop_front()]; [get] only calls it once [wait_impl]
    holds, on an empty queue it stays blocked ([None]). *)
Definition MessageQueue_get_impl (q : list Payload) :
    option (Payload * list Payload) :=
  match q with
  | [] => None
  | result :: q' => Some (result, q')
  end.

Definition MessageQueue_clear_impl (q : list Payload) : list Payload := [].

(** The lambda of [BasicTileQueue::put_impl]. *)
Definition cancelled_tile (v : Payload) : bool :=
  (CxxString.compare v 0 5 "tile " =? 0) &&
  bool_decide (CxxString.find v "id=" = None).

Definition BasicTileQueue_put_impl (value : Payload) (q : list Payload) :
    list Payload :=
  if String.eqb value "canceltiles"
  then value :: erase_remove_if cancelled_tile q
  else MessageQueue_put_impl value q.

(** [TileQueue::priority] *)
Definition priority (cursors : gmap Z CursorPosition) (tileMsg : string) :
    bool :=
  match parse tileMsg with
  | Some tile =>
      existsb (fun pair => intersectsWithRect tile (X pair.2) (Y pair.2)
                             (Width pair.2) (Height pair.2))
              (map_to_list cursors)
  | None => false
  end.

(** [msg.substr(0, msg.find(" ver"))] *)
Definition tile_key (msg : string) : string :=
  CxxString.substr msg 0 (CxxString.find msg " ver").

(** The two tests that guard the scan for duplicates. *)
Definition tile_prefix_test (msg : string) : bool :=
  CxxString.compare msg 0 4 "tile" =? 0.

Definition tilecombine_test (msg : string) : bool :=
  CxxString.compare msg 0 10 "tilecombine" =? 0.

Definition dedup_guard (q : list Payload) (msg : string) : bool :=
  negb (bool_decide (q = [])) && (tile_prefix_test msg || tilecombine_test msg).

(** The [for] loop over the queue: [Some] is the queue at the [return]
    inside the loop, [None] is falling out of the loop. *)
Fixpoint dedup_loop (cursors : gmap Z CursorPosition) (value : Payload)
    (fuel i : nat) (q : list Payload) : option (list Payload) :=
  match fuel with
  | O => None
  | S fuel' =>
      match q !! i with
      | None => None
      | Some it =>
          if String.eqb (tile_key value) (tile_key it) then
            let q1 := <[i := value]> q in
            Some (if priority cursors value
                  then value :: delete i q1
                  else q1)
          else dedup_loop cursors value fuel' (S i) q
      end
  end.

Definition TileQueue_put_impl (cursors : gmap Z CursorPosition)
    (value : Payload) (q : list Payload) : list Payload :=
  let fallthrough :=
    if priority cursors value then value :: q
    else BasicTileQueue_put_impl value q in
  if dedup_guard q value then
    match dedup_loop cursors value (length q) 0 q with
    | Some q' => q'
    | None => fallthrough
    end
  else fallthrough.

(** [TileQueue::reprioritize] *)
Fixpoint reprioritize_loop (c : CursorPosition) (fuel i : nat)
    (q : list Payload) : list Payload :=
  match fuel with
  | O => q
  | S fuel' =>
      match q !! i with
      | None => q
      | Some it =>
          if tile_intersects it c then
            if (i =? 0)%nat then q else it :: delete i q
          else reprioritize_loop c fuel' (S i) q
      end
  end.

Definition reprioritize (c : CursorPosition) (q : list Payload) :
    list Payload :=
  reprioritize_loop c (length q) 0 q.

(** The queue when the scan stops at entry [i]: the entry is
    overwritten, and a priority payload is then moved to the front. *)
Definition replaced (cursors : gmap Z CursorPosition) (value : Payload)
    (i : nat) (q : list Payload) : list Payload :=
  let q1 := <[i := value]> q in
  if priority cursors value then value :: delete i q1 else q1.

(** The keys of the tile entries of a queue, in queue order. *)
Definition tile_keys (q : list Payload) : list string :=
  tile_key <$> filter (fun e => String.prefix "tile" e = true) q.

(** The operations on a whole queue object. The cursor map is kept by
    members of the class declaration, outside the sources at hand; a
    change of it is any replacement of the map. [remove_if] is not
    among them: it leaves moved-from payloads, whose content is open,
    in the queue. *)
Inductive Op :=
| OpPut (value : Payload)
| OpGet
| OpClear
| OpReprioritize (c : CursorPosition)
| OpCursors (m : gmap Z CursorPosition).

Definition step (s : TileQueue) (o : Op) : TileQueue :=
  match o with
  | OpPut value =>
      mkTileQueue (TileQueue_put_impl (_cursorPositions s) value (_queue s))
                  (_cursorPositions s)
  | OpGet =>
      match MessageQueue_get_impl (_queue s) with
      | Some (_, q') => mkTileQueue q' (_cursorPositions s)
      | None => s
      end
  | OpClear => mkTileQueue (MessageQueue_clear_impl (_queue s)) (_cursorPositions s)
  | OpReprioritize c => mkTileQueue (reprioritize c (_queue s)) (_cursorPositions s)
  | OpCursors m => mkTileQueue (_queue s) m
  end.

Definition empty_queue : TileQueue := mkTileQueue [] ∅.

Definition run (ops : list Op) : TileQueue := foldl step empty_queue ops.

End TileQueue.

End Queue.

(** ** A tile descriptor to run the queue on *)

Module TileDescModel.

(** Modelled from the spec: [TileDesc.hpp] is not among the sources. A
    descriptor keeps the rectangle of the tile; [parse] reads a text
    [tile name=value ...] (or [tilecombine ...]) and fails, as a parse
    error, when the text is not of that form or lacks one of
    [tileposx], [tileposy], [tilewidth], [tileheight]; parameters it does
    not know, such as those after [ver], are skipped. *)
Record TileDesc := mkTileDesc {
  tilePosX : Z; tilePosY : Z; tileWidth : Z; tileHeight : Z
}.

Fixpoint split_on (sep : ascii) (s : string) (cur : string) : list string :=
  match s with
  | EmptyString => [String.rev cur]
  | String c s' =>
      if Ascii.eqb c sep then String.rev cur :: split_on sep s' EmptyString
      else split_on sep s' (String c cur)
  end.

Definition digit (c : ascii) : option Z :=
  let n := Z.of_nat (nat_of_ascii c) in
  if (48 <=? n) && (n <=? 57) then Some (n - 48) else None.

Fixpoint decimal (s : string) (acc : Z) : option Z :=
  match s with
  | EmptyString => Some acc
  | String c s' =>
      match digit c with
      | Some d => decimal s' (10 * acc + d)
      | None => None
      end
  end.

Definition number (s : string) : option Z :=
  match s with
  | EmptyString => None
  | _ => decimal s 0
  end.

(** The value of the first token [name=value] among [tokens]. *)
Fixpoint field (name : string) (tokens : list string) : option Z :=
  match tokens with
  | [] => None
  | t :: tokens' =>
      if String.prefix (name +:+ "=") t
      then number (String.substring (S (String.length name))
                                    (String.length t) t)
      else field name tokens'
  end.

(** Modelled from the spec: [TileDesc::parse], to a descriptor or a
    parse error. *)
Definition parse (text : string) : option TileDesc :=
  match split_on " " text EmptyString with
  | kind :: tokens =>
      if String.eqb kind "tile" || String.eqb kind "tilecombine" then
        x ← field "tileposx" tokens;
        y ← field "tileposy" tokens;
        w ← field "tilewidth" tokens;
        h ← field "tileheight" tokens;
        Some (mkTileDesc x y w h)
      else None
  | [] => None
  end.

(** Modelled from the spec: the rectangle of the tile and the rectangle
    [x, y, w, h] have a pixel in common. *)
Definition intersectsWithRect (t : TileDesc) (x y w h : Z) : bool :=
  (x <? tilePosX t + tileWidth t) && (tilePosX t <? x + w) &&
  (y <? tilePosY t + tileHeight t) && (tilePosY t <? y + h).

#[export] Instance tile_descriptor : Queue.TileDescriptor TileDesc :=
  {| Queue.parse := parse; Queue.intersectsWithRect := intersectsWithRect |}.

(** Moving a [std::vector<char>] leaves it empty in the usual standard
    libraries. *)
#[export] Instance move_payload : Queue.MoveAssign Queue.Payload :=
  fun _ => EmptyString.

End TileDescModel.

(** ** [net/Socket.hpp] *)

Module Net.

(** *** [<poll.h>], [<errno.h>] and the fixed-width integers *)

Definition POLLIN : Z := 1.
Definition POLLOUT : Z := 4.
Definition POLLERR : Z := 8.
Definition POLLHUP : Z := 16.
Definition POLLNVAL : Z := 32.

Definition EINTR : Z := 4.
Definition EAGAIN : Z := 11.
Definition EPIPE : Z := 32.

(** A value brought into the range of a signed integer of [bits] bits. *)
Definition wrap (bits : Z) (z : Z) : Z :=
  (z + 2 ^ (bits - 1)) mod 2 ^ bits - 2 ^ (bits - 1).

Definition int_mul (a b : Z) : Z := wrap 32 (a * b).

(** *** [Poco::Timestamp] and [Poco::Timespan]: 64-bit counts of
    microseconds *)

Definition Timestamp := Z.
Definition TimeDiff := Z.

(** [Poco::Timespan(seconds, microseconds)] *)
Definition Timespan (seconds microseconds : Z) : TimeDiff :=
  wrap 64 (seconds * 1000000 + microseconds).

(** [timestamp += span] and [a - b] *)
Definition Timestamp_add (t : Timestamp) (d : TimeDiff) : Timestamp :=
  wrap 64 (t + d).
Definition Timestamp_sub (a b : Timestamp) : TimeDiff := wrap 64 (a - b).

(** *** [SocketPoll::poll]: the timeout handed to [::poll] *)

(** [Socket::updateTimeout], which does nothing unless overridden. *)
Definition Socket_updateTimeout (timeout : Timestamp) : Timestamp := timeout.

(** What [setupPollFds] does to the deadline: every polled socket, in
    index order, may contract it through its [updateTimeout]. *)
Definition setupPollFds_timeout (pollSockets : list (Timestamp -> Timestamp))
    (timeout : Timestamp) : Timestamp :=
  foldl (fun t updateTimeout => updateTimeout t) timeout pollSockets.

(** The third argument of [::poll(&_pollFds[0], size + 1, ...)], an
    [int] number of milliseconds for the system call. *)
Definition poll_timeout_arg (now : Timestamp)
    (pollSockets : list (Timestamp -> Timestamp)) (timeoutMaxMs : Z) : Z :=
  let timeout := now in
  let timeout := Timestamp_add timeout (Timespan 0 (int_mul timeoutMaxMs 1000)) in
  let timeout := setupPollFds_timeout pollSockets timeout in
  wrap 32 (Timestamp_sub timeout now ÷ 1000).

(** *** [StreamSocket] *)

(** [_inBuffer] and [_outBuffer]; the handler classes are friends of
    [StreamSocket] and work on them directly. *)
Record Buffers := mkBuffers {
  _inBuffer : list ascii;
  _outBuffer : list ascii
}.

Record StreamSocket := mkStreamSocket {
  buffers : Buffers;
  _closed : bool
}.

(** The calls a socket makes on its handler. *)
Inductive Callback :=
| OnConnect | HandleIncomingMessage | PerformWrites | OnDisconnect.

#[export] Instance Callback_eq_dec : EqDecision Callback.
Proof. solve_decision. Defined.

(** How a call ends: it returns or it throws. *)
Inductive Completion := Returned | Thrown.

(** [SocketHandlerInterface], over [World]: the state of the handler
    object and of everything it and the socket reach outside the socket
    (the descriptor, [errno], the write mutex). *)
Class SocketHandlerInterface (World : Type) := {
  onConnect : World -> Buffers -> Completion * World * Buffers;
  handleIncomingMessage : World -> Buffers -> Completion * World * Buffers;
  hasQueuedWrites : World -> bool;
  performWrites : World -> Buffers -> Completion * World * Buffers;
  onDisconnect : World -> Buffers -> Completion * World * Buffers
}.

(** The virtual [readData] and [writeData] (by default [::read] and
    [::write] on the descriptor), [errno], and whether [try_lock] on the
    write mutex succeeds. [readData w len] gives the return value and
    the content of the buffer read into. *)
Class SocketIO (World : Type) := {
  readData : World -> Z -> World * Z * list ascii;
  writeData : World -> list ascii -> World * Z;
  errno : World -> Z;
  try_lock : World -> bool
}.

Inductive HandleResult := CONTINUE | SOCKET_CLOSED.

Section StreamSocket.
Context `{SocketHandlerInterface World} `{SocketIO World}.

(** A socket in its world, with the handler calls made so far (oldest
    first). *)
Record State := mkState {
  socket : StreamSocket;
  world : World;
  calls : list Callback
}.

(** A computation returns, throws, or is still looping when the fuel
    of its loops is used up. *)
Inductive Result (A : Type) :=
| Ret (a : A) (s : State)
| Throw (s : State)
| Diverge (s : State).
Arguments Ret {A} a s.
Arguments Throw {A} s.
Arguments Diverge {A} s.

Definition M (A : Type) := State -> Result A.

Definition state_of {A} (r : Result A) : State :=
  match r with Ret _ s | Throw s | Diverge s => s end.

Definition ret {A} (a : A) : M A := fun s => Ret a s.

Definition bind {A B} (m : M A) (k : A -> M B) : M B :=
  fun s =>
    match m s with
    | Ret a s' => k a s'
    | Throw s' => Throw s'
    | Diverge s' => Diverge s'
    end.

(** [try { m } catch (const std::exception&) { h }], the exceptions of
    the model being of that class. *)
Definition catch {A} (m : M A) (h : M A) : M A :=
  fun s =>
    match m s with
    | Throw s' => h s'
    | r => r
    end.

Definition when (b : bool) (m : M unit) : M unit :=
  if b then m else ret tt.

Notation "x <- m ;; k" := (bind m (fun x => k))
  (at level 100, m at next level, right associativity).
Notation "m ;;; k" := (bind m (fun _ => k))
  (at level 100, right associativity).

Definition get : M State := fun s => Ret s s.
Definition in_size (s : State) : nat := length (_inBuffer (buffers (socket s))).
Definition out_empty (s : State) : bool :=
  bool_decide (_outBuffer (buffers (socket s)) = []).

Definition set_buffers (b : Buffers) (s : State) : State :=
  mkState (mkStreamSocket b (_closed (socket s))) (world s) (calls s).

(** [_socketHandler->cb()] *)
Definition handler (cb : Callback) :
    World -> Buffers -> Completion * World * Buffers :=
  match cb with
  | OnConnect => onConnect
  | HandleIncomingMessage => handleIncomingMessage
  | PerformWrites => performWrites
  | OnDisconnect => onDisconnect
  end.

Definition call (cb : Callback) : M unit :=
  fun s =>
    let '(c, w, b) := handler cb (world s) (buffers (socket s)) in
    let s' := mkState (mkStreamSocket b (_closed (socket s))) w (calls s ++ [cb]) in
    match c with
    | Returned => Ret tt s'
    | Thrown => Throw s'
    end.

(** The constructor, and [StreamSocket::create], which hands the new
    socket to [onConnect]. *)
Definition ctor (w : World) : State :=
  mkState (mkStreamSocket (mkBuffers [] []) false) w [].

Definition create : M unit := call OnConnect.

(** [~StreamSocket] *)
Definition dtor : M unit :=
  s <- get ;; when (negb (_closed (socket s))) (call OnDisconnect).

Definition getPollEvents (s : State) : Z :=
  if negb (out_empty s) || hasQueuedWrites (world s)
  then Z.lor POLLIN POLLOUT
  else POLLIN.

(** [sizeof(buf)] in [readIncomingData] *)
Definition read_chunk : Z := 16 * 1024.

(** [readIncomingData]: both [do ... while] loops, one read per round. *)
Fixpoint readIncomingData (fuel : nat) : M bool :=
  fun s =>
    match fuel with
    | O => Diverge s
    | S fuel' =>
        let '(w, len, buf) := readData (world s) read_chunk in
        let s1 := mkState (socket s) w (calls s) in
        if (len <? 0) && (errno w =? EINTR) then readIncomingData fuel' s1
        else
          let s2 :=
            if 0 <? len then
              set_buffers
                (mkBuffers (_inBuffer (buffers (socket s1)) ++ take (Z.to_nat len) buf)
                           (_outBuffer (buffers (socket s1)))) s1
            else s1 in
          if len =? read_chunk then readIncomingData fuel' s2
          else Ret (negb (len =? 0)) s2
    end.

(** [writeOutgoingData], entered with a non-empty [_outBuffer]. *)
Fixpoint writeOutgoingData (fuel : nat) : M unit :=
  fun s =>
    match fuel with
    | O => Diverge s
    | S fuel' =>
        let out := _outBuffer (buffers (socket s)) in
        let '(w, len) := writeData (world s) out in
        let s1 := mkState (socket s) w (calls s) in
        if (len <? 0) && (errno w =? EINTR) then writeOutgoingData fuel' s1
        else if 0 <? len then
          let out' := drop (Z.to_nat len) out in
          let s2 := set_buffers (mkBuffers (_inBuffer (buffers (socket s1))) out') s1 in
          if bool_decide (out' = []) then Ret tt s2
          else writeOutgoingData fuel' s2
        else Ret tt s1
    end.

(** The test of the [while] in [handlePoll]. *)
Definition incoming_test (oldSize : nat) (s : State) : bool :=
  negb (in_size s =? 0)%nat && negb (oldSize =? in_size s)%nat.

(** [while (!_inBuffer.empty() && oldSize != _inBuffer.size())] *)
Fixpoint incoming_loop (fuel : nat) (oldSize : nat) : M unit :=
  fun s =>
    if incoming_test oldSize s then
      match fuel with
      | O => Diverge s
      | S fuel' =>
          bind (call HandleIncomingMessage)
               (fun _ => incoming_loop fuel' (in_size s)) s
      end
    else Ret tt s.

(** The same loop in the words of the specification: the handler is
    invoked while the input buffer is non-empty and, from the second
    invocation on, shrank during the previous one ([prev] is the size
    before that one); an exception out of the handler ends the loop. *)
Inductive invoked_while_shrinking :
    option nat -> State -> Result unit -> Prop :=
| iws_empty prev s :
    in_size s = 0%nat -> invoked_while_shrinking prev s (Ret tt s)
| iws_not_shrunk p s :
    ~ (in_size s < p)%nat -> invoked_while_shrinking (Some p) s (Ret tt s)
| iws_invoke prev s s1 r :
    in_size s <> 0%nat ->
    (forall p, prev = Some p -> (in_size s < p)%nat) ->
    call HandleIncomingMessage s = Ret tt s1 ->
    invoked_while_shrinking (Some (in_size s)) s1 r ->
    invoked_while_shrinking prev s r
| iws_throw prev s s1 :
    in_size s <> 0%nat ->
    (forall p, prev = Some p -> (in_size s < p)%nat) ->
    call HandleIncomingMessage s = Throw s1 ->
    invoked_while_shrinking prev s (Throw s1).

(** The loop as it is written: the handler is invoked while the input
    buffer is non-empty and, from the second invocation on, its size
    changed during the previous one, whether it shrank or grew ([prev]
    is the size before that one); an exception out of the handler ends
    the loop. [n] bounds the invocations looked at: a loop that is
    still running has made [n] of them and is about to make one
    more. *)
Inductive invoked_while_changing :
    nat -> option nat -> State -> Result unit -> Prop :=
| iwc_empty n prev s :
    in_size s = 0%nat -> invoked_while_changing n prev s (Ret tt s)
| iwc_unchanged n p s :
    in_size s = p -> invoked_while_changing n (Some p) s (Ret tt s)
| iwc_invoke n prev s s1 r :
    in_size s <> 0%nat ->
    (forall p, prev = Some p -> in_size s <> p) ->
    call HandleIncomingMessage s = Ret tt s1 ->
    invoked_while_changing n (Some (in_size s)) s1 r ->
    invoked_while_changing (S n) prev s r
| iwc_throw n prev s s1 :
    in_size s <> 0%nat ->
    (forall p, prev = Some p -> in_size s <> p) ->
    call HandleIncomingMessage s = Throw s1 ->
    invoked_while_changing (S n) prev s (Throw s1)
| iwc_running prev s :
    in_size s <> 0%nat ->
    (forall p, prev = Some p -> in_size s <> p) ->
    invoked_while_changing 0 prev s (Diverge s).

(** A handler that only takes bytes off the input buffer, which the
    socket alone appends to. *)
Definition drains : Prop :=
  forall (w : World) (b : Buffers),
    (length (_inBuffer (handleIncomingMessage w b).2) <= length (_inBuffer b))%nat.

Definition set_closed : M unit :=
  fun s => Ret tt (mkState (mkStreamSocket (buffers (socket s)) true)
                           (world s) (calls s)).

Definition has (events flag : Z) : bool := negb (Z.land events flag =? 0).

Definition handlePoll (fuel : nat) (events : Z) : M HandleResult :=
  let closed := has events (Z.lor POLLHUP (Z.lor POLLERR POLLNVAL)) in
  r <- readIncomingData fuel ;;
  let closed := negb r || closed in
  incoming_loop fuel 0 ;;;
  s <- get ;;
  when (has events POLLOUT && out_empty s) (call PerformWrites) ;;;
  s <- get ;;
  closed <-
    (if has events POLLOUT || negb (out_empty s) then
       when (try_lock (world s) && negb (out_empty s)) (writeOutgoingData fuel) ;;;
       s <- get ;;
       ret (closed || (errno (world s) =? EPIPE))
     else ret closed) ;;
  when closed (set_closed ;;; call OnDisconnect) ;;;
  s <- get ;;
  ret (if _closed (socket s) then SOCKET_CLOSED else CONTINUE).

(** *** A socket under [SocketPoll::poll] *)

(** The dispatch of one round for one socket with events [revents]:
    an exception out of [handlePoll] is caught and counts as
    [SOCKET_CLOSED]; without events the socket is left alone. *)
Definition dispatch (fuel : nat) (revents : Z) : M HandleResult :=
  if revents =? 0 then ret CONTINUE
  else catch (handlePoll fuel revents) (ret SOCKET_CLOSED).

(** The rounds of a socket in a poll: on [SOCKET_CLOSED] the poll
    erases the socket and never dispatches to it again. *)
Fixpoint polled (fuel : nat) (rounds : list Z) : M unit :=
  match rounds with
  | [] => ret tt
  | revents :: rounds' =>
      res <- dispatch fuel revents ;;
      match res with
      | SOCKET_CLOSED => ret tt
      | CONTINUE => polled fuel rounds'
      end
  end.

(** The life of a socket in a poll, from the constructor to the
    destructor, which runs when the poll lets go of the socket. *)
Definition polled_life (fuel : nat) (rounds : list Z) (w : World) : Result unit :=
  (polled fuel rounds ;;; dtor) (ctor w).

(** [handlePoll] called with each of [rounds] whatever it returned or
    threw before, then the destructor. *)
Fixpoint handlePolls (fuel : nat) (rounds : list Z) : M unit :=
  match rounds with
  | [] => ret tt
  | events :: rounds' =>
      catch (handlePoll fuel events) (ret SOCKET_CLOSED) ;;;
      handlePolls fuel rounds'
  end.

Definition unguarded_life (fuel : nat) (rounds : list Z) (w : World) : Result unit :=
  (handlePolls fuel rounds ;;; dtor) (ctor w).

(** [_outBuffer.insert(_outBuffer.end(), data, data + len)] *)
Definition append_out (data : list ascii) : M unit :=
  fun s =>
    Ret tt (set_buffers (mkBuffers (_inBuffer (buffers (socket s)))
                                   (_outBuffer (buffers (socket s)) ++ data)) s).

(** [send(data, len, flush)]: [data] is the [len] bytes at the pointer,
    and is empty when the pointer is null or [len] is not positive.
    The write lock is free to take: nobody else is sending. *)
Definition send (fuel : nat) (data : list ascii) (flush : bool) : M unit :=
  if bool_decide (data = []) then ret tt
  else append_out data ;;; when flush (writeOutgoingData fuel).

(** The life of a socket made by [StreamSocket::create]: [onConnect] is
    called on the new socket; when it throws, the socket, which nobody
    else holds yet, is destroyed at once, otherwise it lives in a
    poll. *)
Definition created_life (fuel : nat) (rounds : list Z) (w : World) : Result unit :=
  (catch (create ;;; polled fuel rounds) (ret tt) ;;; dtor) (ctor w).

(** *** Assertions on the life of a socket *)

(** Not closed, and [onDisconnect] not called yet. *)
Definition connected (s : State) : Prop :=
  _closed (socket s) = false /\ OnDisconnect ∉ calls s.

(** [onDisconnect] was called once, and it is the last call made. *)
Definition disconnected_once (s : State) : Prop :=
  exists t, calls s = t ++ [OnDisconnect] /\ OnDisconnect ∉ t.

(** Closed by [handlePoll]. *)
Definition closed_once (s : State) : Prop :=
  _closed (socket s) = true /\ disconnected_once s.

(** What a [handlePoll] on a connected socket ends in. *)
Definition after_handlePoll (res : HandleResult) (s : State) : Prop :=
  match res with
  | CONTINUE => connected s
  | SOCKET_CLOSED => closed_once s
  end.

(** Triples with one postcondition for each way a computation ends. *)
Definition triple {A} (P : State -> Prop) (m : M A)
    (Q : A -> State -> Prop) (E D : State -> Prop) : Prop :=
  forall s, P s ->
    match m s with
    | Ret a s' => Q a s'
    | Throw s' => E s'
    | Diverge s' => D s'
    end.

(** A computation that leaves a connected socket connected, however
    it ends. *)
Definition quiet {A} (m : M A) : Prop :=
  triple connected m (fun _ => connected) connected connected.

(** What [readIncomingData] and [writeOutgoingData] leave alone. *)
Definition same_but_buffers (s s' : State) : Prop :=
  _closed (socket s') = _closed (socket s) /\ calls s' = calls s.

(** The calls of one [handlePoll], after the calls [c0] made before it
    on a socket whose flag was [f0]: [handleIncomingMessage] some
    times, then at most one [performWrites], then at most one
    [onDisconnect]. *)
Definition polled_calls (events : Z) (c0 : list Callback) (f0 : bool)
    (n : nat) (pw od : list Callback) (s : State) : Prop :=
  calls s = c0 ++ replicate n HandleIncomingMessage ++ pw ++ od /\
  (pw = [] \/ pw = [PerformWrites] /\ has events POLLOUT = true) /\
  (od = [] /\ _closed (socket s) = f0 \/
   od = [OnDisconnect] /\ _closed (socket s) = true).

(** The events on which [handlePoll] closes the socket. *)
Definition hangup : Z := Z.lor POLLHUP (Z.lor POLLERR POLLNVAL).

(** No [onConnect] among the calls made after the calls [c0]. *)
Definition no_connect_since (c0 : list Callback) (s : State) : Prop :=
  exists t, calls s = c0 ++ t /\ OnConnect ∉ t.

(** A read of [readIncomingData] returns 0, the end of file: the
    first one, or one after reads that were interrupted ([EINTR]) and
    reads that filled the whole chunk. *)
Inductive meets_eof : State -> Prop :=
| eof_read s w buf :
    readData (world s) read_chunk = (w, 0, buf) -> meets_eof s
| eof_after_EINTR s w len buf :
    readData (world s) read_chunk = (w, len, buf) ->
    len < 0 -> errno w = EINTR ->
    meets_eof (mkState (socket s) w (calls s)) ->
    meets_eof s
| eof_after_chunk s w buf :
    readData (world s) read_chunk = (w, read_chunk, buf) ->
    meets_eof
      (set_buffers
         (mkBuffers (_inBuffer (buffers (socket s)) ++ take (Z.to_nat read_chunk) buf)
                    (_outBuffer (buffers (socket s))))
         (mkState (socket s) w (calls s))) ->
    meets_eof s.

End StreamSocket.

Arguments State : clear implicits.
Arguments M : clear implicits.
Arguments Ret {World A} a s.
Arguments Throw {World A} s.
Arguments Diverge {World A} s.

(** *** [SocketPoll]: the sockets of a poll *)

(** [Socket::handlePoll] of a polled socket, pure virtual in [Socket]:
    its result, or [None] when it throws. A [std::shared_ptr<Socket>] is
    the identity of the socket it points to. *)
Class Pollable (Sock : Type) :=
  socket_handlePoll : Sock -> Z -> option HandleResult.

(** What a round of the poll does to the outside: a [handlePoll]
    dispatched to a socket with its events, a callback invoked,
    [wakeupHook]. Callbacks and hooks are opaque: they are taken not to
    come back to the poll while it runs them. *)
Inductive PollEvent (Sock Fn : Type) :=
| Dispatched (sock : Sock) (revents : Z)
| Invoked (fn : Fn)
| WakeupHook.
Arguments Dispatched {Sock Fn} sock revents.
Arguments Invoked {Sock Fn} fn.
Arguments WakeupHook {Sock Fn}.

(** The bytes a pipe holds at most (Linux). *)
Definition pipe_capacity : N := 65536.

Section SocketPoll.
Context {Sock : Type} `{EqDecision Sock} `{Pollable Sock} {Fn : Type}.

(** The members of [SocketPoll], the bytes waiting in the wake-up pipe
    (written to [_wakeup[1]], not yet read from [_wakeup[0]]), and what
    the poll has done so far. *)
Record SocketPoll := mkSocketPoll {
  _pollSockets : list Sock;
  _newSockets : list Sock;
  _relSockets : list Sock;
  _newCallbacks : list Fn;
  _stop : bool;
  wakeup_pipe : N;
  poll_log : list (PollEvent Sock Fn)
}.

(** A fresh poll. *)
Definition new_poll : SocketPoll := mkSocketPoll [] [] [] [] false 0 [].

(** [wakeup()]: one byte into the pipe, unless it is full ([EAGAIN]). *)
Definition wakeup (p : SocketPoll) : SocketPoll :=
  mkSocketPoll (_pollSockets p) (_newSockets p) (_relSockets p)
               (_newCallbacks p) (_stop p)
               (N.min (wakeup_pipe p + 1) pipe_capacity) (poll_log p).

Definition stop (p : SocketPoll) : SocketPoll :=
  wakeup (mkSocketPoll (_pollSockets p) (_newSockets p) (_relSockets p)
                       (_newCallbacks p) true (wakeup_pipe p) (poll_log p)).

Definition continuePolling (p : SocketPoll) : bool := negb (_stop p).

(** [insertNewSocket]: a null pointer ([None]) is ignored. *)
Definition insertNewSocket (newSocket : option Sock) (p : SocketPoll) : SocketPoll :=
  match newSocket with
  | None => p
  | Some sock =>
      wakeup (mkSocketPoll (_pollSockets p) (_newSockets p ++ [sock])
                           (_relSockets p) (_newCallbacks p) (_stop p)
                           (wakeup_pipe p) (poll_log p))
  end.

Definition addCallback (fn : Fn) (p : SocketPoll) : SocketPoll :=
  wakeup (mkSocketPoll (_pollSockets p) (_newSockets p) (_relSockets p)
                       (_newCallbacks p ++ [fn]) (_stop p)
                       (wakeup_pipe p) (poll_log p)).

Definition releaseSocket (sock : option Sock) (p : SocketPoll) : SocketPoll :=
  match sock with
  | None => p
  | Some sock =>
      wakeup (mkSocketPoll (_pollSockets p) (_newSockets p)
                           (_relSockets p ++ [sock]) (_newCallbacks p) (_stop p)
                           (wakeup_pipe p) (poll_log p))
  end.

(** [it = std::find(l.begin(), l.end(), x); if (it != l.end()) l.erase(it);] *)
Definition erase_found (x : Sock) (l : list Sock) : list Sock :=
  match list_find (fun y => y = x) l with
  | Some (k, _) => delete k l
  | None => l
  end.

(** The first loop of [setupPollFds], from the last released socket
    down to the first. *)
Fixpoint release_loop (i : nat) (relSockets pollSockets : list Sock) : list Sock :=
  match i with
  | O => pollSockets
  | S i' =>
      match relSockets !! i' with
      | Some sock => release_loop i' relSockets (erase_found sock pollSockets)
      | None => release_loop i' relSockets pollSockets
      end
  end.

(** [setupPollFds], for what it does to the sockets of the poll. *)
Definition setupPollFds (p : SocketPoll) : SocketPoll :=
  mkSocketPoll (release_loop (length (_relSockets p)) (_relSockets p) (_pollSockets p))
               (_newSockets p) [] (_newCallbacks p) (_stop p)
               (wakeup_pipe p) (poll_log p).

(** One socket of the dispatch loop of [poll], at index [i]; [pollFds]
    are the [revents] the system call has filled in. *)
Definition dispatch_at (i : nat) (pollFds : list Z) (p : SocketPoll) : SocketPoll :=
  match _pollSockets p !! i with
  | None => p
  | Some sock =>
      match list_find (fun y => y = sock) (_relSockets p) with
      | Some (k, _) =>
          mkSocketPoll (delete i (_pollSockets p)) (_newSockets p)
                       (delete k (_relSockets p)) (_newCallbacks p) (_stop p)
                       (wakeup_pipe p) (poll_log p)
      | None =>
          let revents := default 0 (pollFds !! i) in
          if revents =? 0 then p
          else
            let res := default SOCKET_CLOSED (socket_handlePoll sock revents) in
            let log := poll_log p ++ [Dispatched sock revents] in
            match res with
            | SOCKET_CLOSED =>
                mkSocketPoll (delete i (_pollSockets p)) (_newSockets p)
                             (_relSockets p) (_newCallbacks p) (_stop p)
                             (wakeup_pipe p) log
            | CONTINUE =>
                mkSocketPoll (_pollSockets p) (_newSockets p)
                             (_relSockets p) (_newCallbacks p) (_stop p)
                             (wakeup_pipe p) log
            end
      end
  end.

(** [for (int i = size - 1; i >= 0; --i)] *)
Fixpoint dispatch_loop (size : nat) (pollFds : list Z) (p : SocketPoll) : SocketPoll :=
  match size with
  | O => p
  | S i => dispatch_loop i pollFds (dispatch_at i pollFds p)
  end.

(** The end of [poll], when the wake-up pipe has events: up to
    [sizeof(int)] bytes are read off the pipe, the new sockets join the
    polled ones, the callbacks are taken and invoked in their order,
    then [wakeupHook]. *)
Definition wake_phase (wake_revents : Z) (p : SocketPoll) : SocketPoll :=
  if wake_revents =? 0 then p
  else
    mkSocketPoll (_pollSockets p ++ _newSockets p) [] (_relSockets p) []
                 (_stop p) (wakeup_pipe p - N.min 4 (wakeup_pipe p))
                 (poll_log p ++ (Invoked <$> _newCallbacks p) ++ [WakeupHook]).

(** What the system call reports for the read end of the pipe: it is
    readable as long as a byte waits in it. *)
Definition wake_revents (p : SocketPoll) : Z :=
  if (0 <? wakeup_pipe p)%N then POLLIN else 0.

(** [poll(timeoutMaxMs)], the system call having filled in [pollFds]
    for the sockets. *)
Definition poll (pollFds : list Z) (p : SocketPoll) : SocketPoll :=
  let p1 := setupPollFds p in
  let size := length (_pollSockets p1) in
  let p2 := dispatch_loop size pollFds p1 in
  wake_phase (wake_revents p2) p2.

(** What the threads around a poll and its own thread do to it. *)
Inductive PollOp :=
| DoInsert (newSocket : option Sock)
| DoRelease (sock : option Sock)
| DoAddCallback (fn : Fn)
| DoStop
| DoPoll (pollFds : list Z).

Definition poll_step (p : SocketPoll) (o : PollOp) : SocketPoll :=
  match o with
  | DoInsert newSocket => insertNewSocket newSocket p
  | DoRelease sock => releaseSocket sock p
  | DoAddCallback fn => addCallback fn p
  | DoStop => stop p
  | DoPoll pollFds => poll pollFds p
  end.

Definition poll_run (ops : list PollOp) : SocketPoll := foldl poll_step new_poll ops.

(** The log entries of a dispatch over the sockets [ps0] with the
    events [pollFds]: each is a [handlePoll] on the socket of an index,
    with the events of that index, which are not 0. *)
Definition dispatched_by_index (ps0 : list Sock) (pollFds : list Z)
    (e : PollEvent Sock Fn) : Prop :=
  exists i sock revents,
    e = Dispatched sock revents /\ ps0 !! i = Some sock /\
    pollFds !! i = Some revents /\ revents <> 0.

(** A socket stays in the poll when it had no events or its
    [handlePoll] returned [CONTINUE]. *)
Definition stays_polled (sr : Sock * Z) : bool :=
  (sr.2 =? 0) ||
  match socket_handlePoll sr.1 sr.2 with Some CONTINUE => true | _ => false end.

End SocketPoll.

Arguments SocketPoll : clear implicits.
Arguments PollOp : clear implicits.

End Net.

(** ** A handler and a peer to run a socket on *)

Module EchoModel.
Import Net.

(** The bytes the peer has sent and the socket has not read yet, whether
    the peer has closed its end, and [errno]. *)
Record World := mkWorld {
  wire : list ascii;
  peer_closed : bool;
  last_errno : Z
}.

(** A non-blocking [::read]: what is there, end of file once the peer
    has closed, [EAGAIN] otherwise. *)
Definition read (w : World) (len : Z) : World * Z * list ascii :=
  match wire w with
  | [] =>
      if peer_closed w then (w, 0, [])
      else (mkWorld [] false EAGAIN, -1, [])
  | _ =>
      let chunk := take (Z.to_nat len) (wire w) in
      (mkWorld (drop (Z.to_nat len) (wire w)) (peer_closed w) (last_errno w),
       Z.of_nat (length chunk), chunk)
  end.

(** A [::write] that takes everything. *)
Definition write (w : World) (out : list ascii) : World * Z :=
  (w, Z.of_nat (length out)).

#[export] Instance io : SocketIO World :=
  {| readData := read; writeData := write; errno := last_errno;
     try_lock := fun _ => true |}.

(** The handler sends back the input byte by byte. *)
Definition echo_one (w : World) (b : Buffers) : Completion * World * Buffers :=
  match _inBuffer b with
  | [] => (Returned, w, b)
  | c :: rest => (Returned, w, mkBuffers rest (_outBuffer b ++ [c]))
  end.

Definition nothing (w : World) (b : Buffers) : Completion * World * Buffers :=
  (Returned, w, b).

#[export] Instance echo : SocketHandlerInterface World :=
  {| onConnect := nothing; handleIncomingMessage := echo_one;
     hasQueuedWrites := fun _ => false; performWrites := nothing;
     onDisconnect := nothing |}.

End EchoModel.

(** ** A handler that grows the input buffer *)

Module GrowModel.
Import Net.

(** Nothing of the world matters to this handler. *)
Inductive World := still.

Definition nothing (w : World) (b : Buffers) : Completion * World * Buffers :=
  (Returned, w, b).

(** The handler puts a byte into the input buffer as long as it holds
    fewer than three, and then leaves it alone. *)
Definition push_byte (w : World) (b : Buffers) : Completion * World * Buffers :=
  (Returned, w,
   if (length (_inBuffer b) <? 3)%nat
   then mkBuffers (_inBuffer b ++ ["x"%char]) (_outBuffer b)
   else b).

#[export] Instance grow : SocketHandlerInterface World :=
  {| onConnect := nothing; handleIncomingMessage := push_byte;
     hasQueuedWrites := fun _ => false; performWrites := nothing;
     onDisconnect := nothing |}.

End GrowModel.

(** ** Sockets to run a poll on *)

Module PollModel.
Import Net.

(** Sockets known by their descriptor, which go on until the peer hangs
    up. *)
#[export] Instance by_fd : Pollable Z :=
  fun _ revents => Some (if has revents POLLHUP then SOCKET_CLOSED else CONTINUE).

End PollModel.

(** ** The scenarios of the specification *)

Module Scenario.
Import Queue.

Definition S1_first : Payload := "tile part=0 tileposx=0 tileposy=0 ver=1".
Definition S1_second : Payload := "tile part=0 tileposx=0 tileposy=0 ver=2".

Definition S2_queue : list Payload :=
  ["tile part=0 tileposx=0 tileposy=0 ver=1";
   "tile part=0 tileposx=256 tileposy=0 id=preview ver=1"].

Definition S3_cursor : CursorPosition := mkCursor 100 100 50 50.
Definition S3_T1 : Payload :=
  "tile part=0 tileposx=1000 tileposy=1000 tilewidth=256 tileheight=256 ver=1".
Definition S3_T2 : Payload :=
  "tile part=0 tileposx=0 tileposy=0 tilewidth=256 tileheight=256 ver=1".

Definition S4_A : Payload :=
  "tile part=0 tileposx=0 tileposy=0 tilewidth=256 tileheight=256 ver=1".
Definition S4_B : Payload :=
  "tile part=0 tileposx=256 tileposy=0 tilewidth=256 tileheight=256 ver=1".
Definition S4_C : Payload :=
  "tile part=0 tileposx=512 tileposy=512 tilewidth=256 tileheight=256 ver=1".
Definition S4_cursor : CursorPosition := mkCursor 600 600 10 10.

(** The poll of [pollingThread], at some time of day. *)
Definition poll_now : Z := 1488326400000000.
Definition poll_timeoutMaxMs : Z := 5000.

(** A peer that has sent three bytes and then closed (S6). *)
Definition S6_world : EchoModel.World :=
  EchoModel.mkWorld (String.list_ascii_of_string "abc") true 0.

(** A peer that is silent and hangs up. *)
Definition silent_world : EchoModel.World := EchoModel.mkWorld [] false 0.

End Scenario.

(** * Properties *)

(** ** Strings *)

Section CxxStringFacts.
Import CxxString.

Lemma string_compare_refl (s : string) : String.compare s s = Eq.
Proof.
  induction s as [|c s IH]; simpl; [done|].
  assert (Ascii.compare c c = Eq) as -> by (unfold Ascii.compare; apply N.compare_refl).
  done.
Qed.

Lemma compare_0 (s : string) (pos len : nat) (t : string) :
  compare s pos len t = 0 <-> String.substring pos len s = t.
Proof.
  unfold compare. split.
  - destruct (String.compare _ t) eqn:E; try discriminate.
    intros _. by apply String.compare_eq_iff.
  - intros ->. by rewrite string_compare_refl.
Qed.

Lemma substring_length_le (s : string) (n m : nat) :
  (String.length (String.substring n m s) <= m)%nat.
Proof.
  revert n m. induction s as [|c s IH]; intros [|n] [|m]; simpl; try lia.
  - specialize (IH 0%nat m). lia.
  - apply (IH n 0%nat).
  - apply (IH n (S m)).
Qed.

Lemma substring_all (s : string) :
  String.substring 0 (String.length s) s = s.
Proof. induction s as [|c s IH]; simpl; [done|]. by rewrite IH. Qed.

Lemma prefix_compare (p s : string) :
  String.prefix p s = true <-> compare s 0 (String.length p) p = 0.
Proof. rewrite compare_0. apply String.prefix_correct. Qed.

(** [find] gives [npos] exactly when the text occurs nowhere. *)
Lemma find_None_iff (s t : string) :
  t <> EmptyString ->
  find s t = None <-> forall k, String.substring k (String.length t) s <> t.
Proof.
  intros Ht. unfold find. split.
  - intros Hf k. apply (String.index_correct3 0 k t s Hf Ht). lia.
  - intros Hno. destruct (String.index 0 t s) as [k|] eqn:E; [|done].
    apply String.index_correct1 in E. by destruct (Hno k).
Qed.

End CxxStringFacts.

(** ** [std::remove_if] *)

Section AlgorithmFacts.
Import Queue.
Context `{MoveAssign A}.
Variable pred : A -> bool.

Local Abbreviation kept := (filter (fun v => pred v = false)).

Lemma find_if_le (q : list A) : (find_if pred q <= length q)%nat.
Proof. induction q as [|v q IH]; simpl; [lia|]. destruct (pred v); lia. Qed.

Lemma find_if_before (q : list A) :
  kept (take (find_if pred q) q) = take (find_if pred q) q.
Proof.
  induction q as [|v q IH]; simpl; [done|].
  destruct (pred v) eqn:E; simpl; [done|].
  rewrite filter_cons_True by done. by rewrite IH.
Qed.

Lemma find_if_at (q : list A) :
  (find_if pred q < length q)%nat ->
  exists v, q !! find_if pred q = Some v /\ pred v = true.
Proof.
  induction q as [|v q IH]; simpl; [lia|].
  destruct (pred v) eqn:E; simpl; [by exists v|].
  intros Hlt. apply IH. lia.
Qed.

Lemma remove_if_loop_length (n first result : nat) (q : list A) :
  length (remove_if_loop pred n first result q).1 = length q.
Proof.
  revert first result q. induction n as [|n IH]; intros first result q; simpl; [done|].
  destruct (q !! first) as [v|]; [|done].
  destruct (pred v); rewrite IH; [done|].
  by rewrite !length_insert.
Qed.

Lemma remove_if_loop_kept (q0 : list A) (n first result : nat) (q : list A) :
  (result < first)%nat ->
  (length q <= first + n)%nat ->
  length q = length q0 ->
  drop first q = drop first q0 ->
  take result q = kept (take first q0) ->
  let '(q', r) := remove_if_loop pred n first result q in
  take r q' = kept q0.
Proof.
  revert first result q.
  induction n as [|n IH]; intros first result q Hlt Hfuel Hlen Hdrop Htake; simpl.
  - rewrite Htake, take_ge by lia. done.
  - destruct (q !! first) as [v|] eqn:Hv.
    + assert (q0 !! first = Some v) as Hv0.
      { rewrite <- (Nat.add_0_r first), <- lookup_drop, <- Hdrop, lookup_drop.
        by rewrite Nat.add_0_r. }
      assert (drop (S first) q = drop (S first) q0) as Hdrop'.
      { replace (S first) with (first + 1)%nat by lia.
        rewrite <- !drop_drop. by rewrite Hdrop. }
      destruct (pred v) eqn:Hp.
      * apply IH; [lia|lia|done|done|].
        rewrite (take_S_r _ _ _ Hv0), filter_app, filter_cons_False, filter_nil, app_nil_r
          by (rewrite Hp; done).
        done.
      * apply IH; [lia| |by rewrite !length_insert| |].
        -- rewrite !length_insert. lia.
        -- by rewrite !drop_insert_lt by lia.
        -- rewrite take_insert_ge by lia.
           assert (result < length q)%nat as Hr by (apply lookup_lt_Some in Hv; lia).
           rewrite (take_S_r _ _ v) by (by apply list_lookup_insert_eq).
           rewrite take_insert_ge by lia.
           rewrite (take_S_r _ _ _ Hv0), filter_app, filter_cons_True by done.
           by rewrite Htake, filter_nil.
    + apply lookup_ge_None in Hv.
      rewrite Htake, take_ge by lia. done.
Qed.

Lemma std_remove_if_length (q : list A) :
  length (std_remove_if pred q).1 = length q.
Proof.
  unfold std_remove_if. case_match; [done|]. apply remove_if_loop_length.
Qed.

Lemma erase_remove_if_filter (q : list A) :
  erase_remove_if pred q = kept q.
Proof.
  unfold erase_remove_if, std_remove_if.
  pose proof (find_if_le q) as Hle. pose proof (find_if_before q) as Hb.
  destruct (Nat.eqb_spec (find_if pred q) (length q)) as [E|E].
  - rewrite E in *. rewrite take_ge in * by lia. done.
  - destruct (find_if_at q) as (v & Hv & Hp); [lia|].
    pose proof (remove_if_loop_kept q (length q) (S (find_if pred q)) (find_if pred q) q) as Hl.
    destruct (remove_if_loop _ _ _ _ _) as [q' r].
    apply Hl; [lia|lia|done|done|].
    rewrite (take_S_r _ _ _ Hv), filter_app, filter_cons_False, filter_nil, app_nil_r
      by (rewrite Hp; done).
    by rewrite Hb.
Qed.

End AlgorithmFacts.

(** ** The queue policy *)

Section QueueFacts.
Import CxxString Queue Scenario.
Context `{TileDescriptor TileDesc} `{MoveAssign Payload}.

Lemma tile_prefix_test_prefix (msg : string) :
  tile_prefix_test msg = true <-> String.prefix "tile" msg = true.
Proof.
  unfold tile_prefix_test. rewrite Z.eqb_eq. symmetry. apply prefix_compare.
Qed.

Lemma tilecombine_test_false (msg : string) : tilecombine_test msg = false.
Proof.
  unfold tilecombine_test. apply Z.eqb_neq. rewrite compare_0. intros E.
  pose proof (substring_length_le msg 0 10) as Hle.
  rewrite E in Hle. simpl in Hle. lia.
Qed.

Lemma dedup_guard_spec (q : list Payload) (msg : string) :
  dedup_guard q msg = true <-> q <> [] /\ String.prefix "tile" msg = true.
Proof.
  unfold dedup_guard. rewrite tilecombine_test_false, orb_false_r.
  rewrite andb_true_iff, negb_true_iff, bool_decide_eq_false.
  by rewrite tile_prefix_test_prefix.
Qed.

Lemma prefix_substring (p s : string) (k : nat) :
  String.prefix p (String.substring 0 k s) = true -> String.prefix p s = true.
Proof.
  revert s k. induction p as [|c p IH]; intros s k; [by destruct s|].
  destruct s as [|d s], k as [|k]; simpl; try done.
  destruct (ascii_dec c d); [|done]. apply IH.
Qed.

Lemma prefix_tile_key (msg : string) :
  String.prefix "tile" (tile_key msg) = true -> String.prefix "tile" msg = true.
Proof.
  unfold tile_key, substr. destruct (find msg " ver") as [k|].
  - apply prefix_substring.
  - rewrite Nat.sub_0_r, substring_all. done.
Qed.

Lemma tile_key_prefix (msg : string) :
  String.prefix "tile" msg = true -> String.prefix "tile" (tile_key msg) = true.
Proof.
  intros Hp. unfold tile_key, substr.
  destruct (find msg " ver") as [k|] eqn:Hk.
  - apply String.index_correct1 in Hk. 
    apply String.prefix_correct in Hp. simpl in Hp.
    destruct msg as [|c1 [|c2 [|c3 [|c4 rest]]]]; try discriminate.
    simpl in Hp. injection Hp as -> -> -> -> _.
    destruct k as [|[|[|[|k]]]]; simpl in Hk; try discriminate.
    simpl. by destruct (String.substring 0 k rest).
  - rewrite Nat.sub_0_r, substring_all. done.
Qed.

Lemma same_key_prefix (e value : string) :
  String.prefix "tile" value = true -> tile_key e = tile_key value ->
  String.prefix "tile" e = true.
Proof.
  intros Hp Hk. apply prefix_tile_key. rewrite Hk. by apply tile_key_prefix.
Qed.

Lemma priority_spec (cursors : gmap Z CursorPosition) (msg : string) :
  priority cursors msg = true <->
  exists tile, parse msg = Some tile /\
    exists (viewId : Z) (c : CursorPosition), cursors !! viewId = Some c /\
      intersectsWithRect tile (X c) (Y c) (Width c) (Height c) = true.
Proof.
  unfold priority. destruct (parse msg) as [tile|]; [|split; [done|by intros (? & [=] & _)]].
  rewrite existsb_exists. split.
  - intros ([v c] & Hin & Hi). exists tile. split; [done|]. exists v, c.
    split; [|done]. apply elem_of_map_to_list. by apply list_elem_of_In.
  - intros (tile' & [= <-] & v & c & Hl & Hi). exists (v, c). split; [|done].
    apply list_elem_of_In. by apply elem_of_map_to_list.
Qed.

Lemma priority_no_cursors (msg : string) : priority ∅ msg = false.
Proof.
  apply not_true_is_false. rewrite priority_spec.
  intros (? & _ & ? & ? & Hl & _). by rewrite lookup_empty in Hl.
Qed.


(** The scan for duplicates stops at the first entry with the key of the
    new payload. *)
Lemma dedup_loop_found cursors value (q : list Payload) (j : nat) (e : Payload) :
  q !! j = Some e -> tile_key e = tile_key value ->
  (forall k e', (k < j)%nat -> q !! k = Some e' -> tile_key e' <> tile_key value) ->
  forall fuel i, (i <= j)%nat -> (j < i + fuel)%nat ->
  dedup_loop cursors value fuel i q = Some (replaced cursors value j q).
Proof.
  intros Hj Hk Hfirst. induction fuel as [|fuel IH]; intros i Hij Hf; [lia|].
  cbn [dedup_loop].
  destruct (decide (i = j)) as [->|Hne].
  - rewrite Hj, Hk, String.eqb_refl. done.
  - assert (i < j)%nat as Hlt by lia.
    destruct (lookup_lt_is_Some_2 q i) as [e' He'].
    { apply lookup_lt_Some in Hj. lia. }
    rewrite He'. destruct (String.eqb_spec (tile_key value) (tile_key e')) as [E|E].
    + exfalso. by apply (Hfirst i e').
    + apply IH; lia.
Qed.

Lemma dedup_loop_none cursors value (q : list Payload) :
  (forall e, e ∈ q -> tile_key e <> tile_key value) ->
  forall fuel i, dedup_loop cursors value fuel i q = None.
Proof.
  intros Hno. induction fuel as [|fuel IH]; intros i; [done|].
  cbn [dedup_loop].
  destruct (q !! i) as [e|] eqn:He; [|done].
  destruct (String.eqb_spec (tile_key value) (tile_key e)) as [E|E]; [|apply IH].
  exfalso. apply (Hno e); [|done]. by apply list_elem_of_lookup_2 in He.
Qed.

Lemma first_with_key (value : Payload) (q : list Payload) :
  (forall e, e ∈ q -> tile_key e <> tile_key value) \/
  exists j e, q !! j = Some e /\ tile_key e = tile_key value /\
    forall k e', (k < j)%nat -> q !! k = Some e' -> tile_key e' <> tile_key value.
Proof.
  destruct (list_find (fun e => tile_key e = tile_key value) q) as [[j e]|] eqn:Hf.
  - right. apply list_find_Some in Hf as (Hj & Hk & Hfirst).
    exists j, e. split_and!; [done..|]. intros k e' Hlt Hk'. by apply (Hfirst k e').
  - left. apply list_find_None in Hf. rewrite Forall_forall in Hf. done.
Qed.

Lemma delete_insert_same (q : list Payload) (i : nat) (value : Payload) :
  delete i (<[i := value]> q) = delete i q.
Proof.
  rewrite !delete_take_drop, take_insert_ge, drop_insert_lt by lia. done.
Qed.

Lemma canceltiles_not_tile : String.prefix "tile" "canceltiles" = false.
Proof. reflexivity. Qed.

(** What [TileQueue::put_impl] does, by cases. *)
Lemma put_impl_found cursors value (q : list Payload) (j : nat) (e : Payload) :
  String.prefix "tile" value = true ->
  q !! j = Some e -> tile_key e = tile_key value ->
  (forall k e', (k < j)%nat -> q !! k = Some e' -> tile_key e' <> tile_key value) ->
  TileQueue_put_impl cursors value q = replaced cursors value j q.
Proof.
  intros Hp Hj Hk Hfirst. unfold TileQueue_put_impl.
  assert (dedup_guard q value = true) as ->.
  { apply dedup_guard_spec. split; [|done]. intros ->. done. }
  rewrite (dedup_loop_found cursors value q j e) ; try done; [lia|].
  apply lookup_lt_Some in Hj. lia.
Qed.

Lemma put_impl_fresh cursors value (q : list Payload) :
  (forall e, e ∈ q -> tile_key e <> tile_key value) ->
  TileQueue_put_impl cursors value q =
    if priority cursors value then value :: q
    else BasicTileQueue_put_impl value q.
Proof.
  intros Hno. unfold TileQueue_put_impl.
  rewrite dedup_loop_none by done. by destruct (dedup_guard q value).
Qed.

Lemma put_impl_not_tile cursors value (q : list Payload) :
  String.prefix "tile" value = false ->
  TileQueue_put_impl cursors value q =
    if priority cursors value then value :: q
    else BasicTileQueue_put_impl value q.
Proof.
  intros Hp. unfold TileQueue_put_impl.
  assert (dedup_guard q value = false) as ->; [|done].
  apply not_true_is_false. rewrite dedup_guard_spec. intros [_ Hp']. congruence.
Qed.

Lemma tile_keys_cons (e : Payload) (q : list Payload) :
  tile_keys (e :: q) =
    if String.prefix "tile" e then tile_key e :: tile_keys q else tile_keys q.
Proof.
  unfold tile_keys. destruct (String.prefix "tile" e) eqn:E.
  - by rewrite filter_cons_True.
  - rewrite filter_cons_False; [done|]. by rewrite E.
Qed.

Lemma tile_keys_app (q1 q2 : list Payload) :
  tile_keys (q1 ++ q2) = tile_keys q1 ++ tile_keys q2.
Proof. unfold tile_keys. by rewrite filter_app, fmap_app. Qed.

Lemma tile_keys_sublist (q1 q2 : list Payload) :
  q1 `sublist_of` q2 -> tile_keys q1 `sublist_of` tile_keys q2.
Proof.
  intros Hs. unfold tile_keys. apply fmap_sublist.
  induction Hs as [|x l1 l2 Hs IH|x l1 l2 Hs IH]; [done| |].
  - destruct (decide (String.prefix "tile" x = true)).
    + rewrite !filter_cons_True by done. by constructor.
    + by rewrite !filter_cons_False by done.
  - destruct (decide (String.prefix "tile" x = true)).
    + rewrite filter_cons_True by done. by constructor.
    + by rewrite filter_cons_False by done.
Qed.

Lemma tile_keys_perm (q1 q2 : list Payload) :
  q1 ≡ₚ q2 -> tile_keys q1 ≡ₚ tile_keys q2.
Proof. intros Hp. unfold tile_keys. by rewrite Hp. Qed.

Lemma not_in_tile_keys (value : Payload) (q : list Payload) :
  String.prefix "tile" value = true ->
  tile_key value ∉ tile_keys q <->
  forall e, e ∈ q -> tile_key e <> tile_key value.
Proof.
  intros Hp. unfold tile_keys. split.
  - intros Hno e He Hk. apply Hno. rewrite <- Hk.
    apply list_elem_of_fmap_2, list_elem_of_filter. split; [|done].
    by apply (same_key_prefix e value).
  - intros Hno (e & Hk & He)%list_elem_of_fmap.
    apply list_elem_of_filter in He as [_ He]. by apply (Hno e).
Qed.

Lemma BasicTileQueue_put_impl_keys (value : Payload) (q : list Payload) :
  String.prefix "tile" value = false ->
  tile_keys (BasicTileQueue_put_impl value q) `sublist_of` tile_keys q.
Proof.
  intros Hp. unfold BasicTileQueue_put_impl, MessageQueue_put_impl.
  destruct (String.eqb value "canceltiles").
  - rewrite tile_keys_cons, Hp, erase_remove_if_filter.
    apply tile_keys_sublist, sublist_filter.
  - rewrite tile_keys_app, (tile_keys_cons value []), Hp. simpl.
    by rewrite app_nil_r.
Qed.

Lemma put_impl_keys_unique cursors (value : Payload) (q : list Payload) :
  NoDup (tile_keys q) -> NoDup (tile_keys (TileQueue_put_impl cursors value q)).
Proof.
  intros Hnd. destruct (String.prefix "tile" value) eqn:Hp.
  - destruct (first_with_key value q) as [Hno|(j & e & Hj & Hk & Hfirst)].
    + rewrite put_impl_fresh by done.
      pose proof (proj2 (not_in_tile_keys value q Hp) Hno) as Hnotin.
      destruct (priority cursors value).
      * rewrite tile_keys_cons, Hp. by apply NoDup_cons.
      * unfold BasicTileQueue_put_impl, MessageQueue_put_impl.
        destruct (String.eqb_spec value "canceltiles") as [->|_]; [done|].
        rewrite tile_keys_app, (tile_keys_cons value []), Hp.
        apply NoDup_app. split_and!; [done| |apply NoDup_singleton].
        intros k Hin ->%list_elem_of_singleton. done.
    + rewrite (put_impl_found cursors value q j e) by done.
      pose proof (same_key_prefix e value Hp Hk) as Hpe.
      unfold replaced. destruct (priority cursors value).
      * rewrite delete_insert_same, tile_keys_cons, Hp, <- Hk.
        assert (tile_key e :: tile_keys (delete j q) = tile_keys (e :: delete j q)) as ->
          by (by rewrite tile_keys_cons, Hpe).
        by rewrite <- (tile_keys_perm _ _ (delete_Permutation q j e Hj)).
      * rewrite insert_take_drop by (by apply lookup_lt_Some in Hj).
        rewrite tile_keys_app, tile_keys_cons, Hp, <- Hk.
        rewrite <- (take_drop_middle q j e Hj) in Hnd.
        by rewrite tile_keys_app, tile_keys_cons, Hpe in Hnd.
  - rewrite put_impl_not_tile by done. destruct (priority cursors value).
    + by rewrite tile_keys_cons, Hp.
    + eapply sublist_NoDup; [done|]. by apply BasicTileQueue_put_impl_keys.
Qed.

Lemma put_impl_elem cursors (value : Payload) (q : list Payload) :
  value ∈ TileQueue_put_impl cursors value q.
Proof.
  assert (value ∈ (if priority cursors value then value :: q
                   else BasicTileQueue_put_impl value q)) as Hfall.
  { destruct (priority cursors value); [by left|].
    unfold BasicTileQueue_put_impl, MessageQueue_put_impl.
    destruct (String.eqb value "canceltiles"); [by left|].
    apply elem_of_app. right. by left. }
  destruct (String.prefix "tile" value) eqn:Hp.
  - destruct (first_with_key value q) as [Hno|(j & e & Hj & Hk & Hfirst)].
    + by rewrite put_impl_fresh.
    + rewrite (put_impl_found cursors value q j e) by done.
      unfold replaced. destruct (priority cursors value); [by left|].
      apply list_elem_of_lookup. exists j. apply list_lookup_insert_eq.
      by apply lookup_lt_Some in Hj.
  - by rewrite put_impl_not_tile.
Qed.

(** With unique keys, a tile entry is the only entry with its key. *)
Lemma one_with_key (e : Payload) (q : list Payload) :
  NoDup (tile_keys q) -> e ∈ q -> String.prefix "tile" e = true ->
  filter (fun x => tile_key x = tile_key e) q = [e].
Proof.
  intros Hnd (l1 & l2 & ->)%list_elem_of_split Hp.
  rewrite tile_keys_app, tile_keys_cons, Hp in Hnd.
  apply NoDup_app in Hnd as (_ & Hl1 & Hl2).
  apply NoDup_cons in Hl2 as [Hl2 _].
  specialize (Hl1 (tile_key e)).
  rewrite filter_app, filter_cons_True by done.
  assert (forall l, tile_key e ∉ tile_keys l ->
            filter (fun x => tile_key x = tile_key e) l = []) as Hnil.
  { intros l Hl.
    destruct (filter (fun x => tile_key x = tile_key e) l) as [|x l'] eqn:E; [done|].
    assert (x ∈ filter (fun x => tile_key x = tile_key e) l) as Hx
      by (rewrite E; by left).
    apply list_elem_of_filter in Hx as [Hk Hx].
    by destruct (proj1 (not_in_tile_keys e l Hp) Hl x Hx). }
  rewrite !Hnil; [done|done|]. intros Hin. apply Hl1; [done|by left].
Qed.

Lemma reprioritize_loop_found (c : CursorPosition) (q : list Payload)
    (j : nat) (e : Payload) :
  q !! j = Some e -> tile_intersects e c = true ->
  (forall k e', (k < j)%nat -> q !! k = Some e' -> tile_intersects e' c = false) ->
  forall fuel i, (i <= j)%nat -> (j < i + fuel)%nat ->
  reprioritize_loop c fuel i q = e :: delete j q.
Proof.
  intros Hj Hi Hfirst. induction fuel as [|fuel IH]; intros i Hij Hf; [lia|].
  cbn [reprioritize_loop]. destruct (decide (i = j)) as [->|Hne].
  - rewrite Hj, Hi. destruct j; [|done].
    destruct q; simplify_eq/=. done.
  - destruct (lookup_lt_is_Some_2 q i) as [e' He'].
    { apply lookup_lt_Some in Hj. lia. }
    rewrite He', (Hfirst i e') by (done || lia). apply IH; lia.
Qed.

Lemma reprioritize_loop_none (c : CursorPosition) (q : list Payload) :
  (forall e, e ∈ q -> tile_intersects e c = false) ->
  forall fuel i, reprioritize_loop c fuel i q = q.
Proof.
  intros Hno. induction fuel as [|fuel IH]; intros i; [done|].
  cbn [reprioritize_loop]. destruct (q !! i) as [e|] eqn:He; [|done].
  rewrite (Hno e) by (by apply list_elem_of_lookup_2 in He). apply IH.
Qed.

Lemma first_intersecting (c : CursorPosition) (q : list Payload) :
  (forall e, e ∈ q -> tile_intersects e c = false) \/
  exists j e, q !! j = Some e /\ tile_intersects e c = true /\
    forall k e', (k < j)%nat -> q !! k = Some e' -> tile_intersects e' c = false.
Proof.
  destruct (list_find (fun e => tile_intersects e c = true) q) as [[j e]|] eqn:Hf.
  - right. apply list_find_Some in Hf as (Hj & Hk & Hfirst).
    exists j, e. split_and!; [done..|]. intros k e' Hlt Hk'.
    apply not_true_is_false. by apply (Hfirst k e').
  - left. apply list_find_None in Hf. rewrite Forall_forall in Hf.
    intros e He. apply not_true_is_false. by apply Hf.
Qed.

Lemma reprioritize_found (c : CursorPosition) (q : list Payload)
    (j : nat) (e : Payload) :
  q !! j = Some e -> tile_intersects e c = true ->
  (forall k e', (k < j)%nat -> q !! k = Some e' -> tile_intersects e' c = false) ->
  reprioritize c q = e :: delete j q.
Proof.
  intros Hj Hi Hfirst. unfold reprioritize.
  apply reprioritize_loop_found; [done..|lia|].
  apply lookup_lt_Some in Hj. lia.
Qed.

Lemma reprioritize_perm (c : CursorPosition) (q : list Payload) :
  reprioritize c q ≡ₚ q.
Proof.
  destruct (first_intersecting c q) as [Hno|(j & e & Hj & Hi & Hfirst)].
  - unfold reprioritize. by rewrite reprioritize_loop_none.
  - rewrite (reprioritize_found c q j e) by done.
    symmetry. by apply delete_Permutation.
Qed.

Lemma reprioritize_idem (c : CursorPosition) (q : list Payload) :
  reprioritize c (reprioritize c q) = reprioritize c q.
Proof.
  destruct (first_intersecting c q) as [Hno|(j & e & Hj & Hi & Hfirst)].
  - unfold reprioritize at 2. rewrite reprioritize_loop_none by done.
    unfold reprioritize. by rewrite reprioritize_loop_none.
  - rewrite (reprioritize_found c q j e) by done.
    rewrite (reprioritize_found c _ 0 e); [done..|]. intros; lia.
Qed.

(** Every queue that the operations build from the empty one has unique
    tile keys. *)
Lemma step_keys_unique (s : TileQueue) (o : Op) :
  NoDup (tile_keys (_queue s)) -> NoDup (tile_keys (_queue (step s o))).
Proof.
  intros Hnd. destruct o as [value| | |c|m]; simpl.
  - by apply put_impl_keys_unique.
  - destruct (_queue s) as [|front q'] eqn:E; simpl; [by rewrite E|].
    eapply sublist_NoDup; [exact Hnd|]. apply tile_keys_sublist. by constructor.
  - constructor.
  - by rewrite (tile_keys_perm _ _ (reprioritize_perm c (_queue s))).
  - done.
Qed.

Lemma run_keys_unique (ops : list Op) : NoDup (tile_keys (_queue (run ops))).
Proof.
  induction ops as [|o ops IH] using rev_ind; [constructor|].
  unfold run. rewrite foldl_snoc. by apply step_keys_unique.
Qed.

(** *** Deduplication *)

(** C1: in every queue built from the empty one by put, get, clear,
    reprioritize and changes of the cursors, after the put of a payload
    [p2] that begins with [tile] or [tilecombine], [p2] is the only entry
    with its normalized key; when a payload [p1] with that key was queued,
    it is the entry [p1] that [p2] was written over, in place (the slot
    then going to the front when [p2] is a priority payload). In scenario
    S1 the queue has length 1 and its front payload ends with [ ver=2]. *)
Theorem put_deduplicates :
  (forall (ops : list Op) (p2 : Payload),
      String.prefix "tile" p2 = true \/ String.prefix "tilecombine" p2 = true ->
      let q' := _queue (step (run ops) (OpPut p2)) in
      filter (fun e => tile_key e = tile_key p2) q' = [p2]) /\
  (forall (ops : list Op) (p1 p2 : Payload),
      String.prefix "tile" p1 = true \/ String.prefix "tilecombine" p1 = true ->
      String.prefix "tile" p2 = true \/ String.prefix "tilecombine" p2 = true ->
      tile_key p1 = tile_key p2 ->
      p1 ∈ _queue (run ops) ->
      let s := run ops in
      let q' := _queue (step s (OpPut p2)) in
      exists i, _queue s !! i = Some p1 /\
        q' = (if priority (_cursorPositions s) p2
              then fun q1 => p2 :: delete i q1 else id) (<[i := p2]> (_queue s))) /\
  (let q := _queue (run [OpPut S1_first; OpPut S1_second]) in
   length q = 1%nat /\
   exists front, q !! 0%nat = Some front /\ ends_with front " ver=2").
Proof.
  assert (forall p, String.prefix "tile" p = true \/ String.prefix "tilecombine" p = true ->
                    String.prefix "tile" p = true) as Htile.
  { intros p [Hp|Hp]; [done|].
    apply String.prefix_correct in Hp. apply String.prefix_correct. simpl in *.
    destruct p as [|c1 [|c2 [|c3 [|c4 rest]]]]; try discriminate.
    injection Hp as ? ? ? ? ?. subst. simpl. by destruct rest. }
  split_and!.
  - intros ops p2 Hp2%Htile q'.
    apply one_with_key; [|apply put_impl_elem|done].
    apply (step_keys_unique (run ops) (OpPut p2)), run_keys_unique.
  - intros ops p1 p2 Hp1%Htile Hp2%Htile Hk Hin s q'.
    pose proof (run_keys_unique ops) as Hnd. fold s in Hnd.
    destruct (first_with_key p2 (_queue s)) as [Hno|(j & e & Hj & Hke & Hfirst)].
    { by destruct (Hno p1 Hin). }
    assert (e = p1) as ->.
    { pose proof (one_with_key p1 (_queue s) Hnd Hin Hp1) as Hone.
      assert (e ∈ filter (fun x => tile_key x = tile_key p1) (_queue s)) as He.
      { apply list_elem_of_filter. split; [congruence|].
        by apply list_elem_of_lookup_2 in Hj. }
      rewrite Hone in He. by apply list_elem_of_singleton in He. }
    exists j. split; [done|]. subst q'. simpl.
    rewrite (put_impl_found _ p2 _ j p1) by done. unfold replaced.
    by destruct (priority _ p2).
  - assert (_queue (run [OpPut S1_first; OpPut S1_second]) = [S1_second]) as ->.
    { unfold run. simpl.
      rewrite (put_impl_fresh ∅ S1_first []) by (by intros e ?%elem_of_nil).
      rewrite priority_no_cursors.
      change (BasicTileQueue_put_impl S1_first []) with [S1_first].
      rewrite (put_impl_found ∅ S1_second [S1_first] 0 S1_first);
        [|done|done|done|intros; lia].
      unfold replaced. by rewrite priority_no_cursors. }
    split; [done|]. exists S1_second. split; [done|]. reflexivity.
Qed.

Lemma cancelled_tile_spec (v : Payload) :
  cancelled_tile v = false <->
  ~ (String.prefix "tile " v = true /\ find v "id=" = None).
Proof.
  unfold cancelled_tile.
  rewrite <- not_true_iff_false, andb_true_iff, Z.eqb_eq, bool_decide_eq_true.
  by rewrite (prefix_compare "tile " v).
Qed.

(** C2: for every queue, putting [canceltiles], a payload that fails tile
    parsing, removes the entries that begin with [tile ] and do not contain
    [id=], keeps every other entry in its order, and puts [canceltiles] at
    position 0. *)
Theorem put_canceltiles (cursors : gmap Z CursorPosition) (q : list Payload) :
  parse "canceltiles" = None ->
  TileQueue_put_impl cursors "canceltiles" q =
    "canceltiles" ::
      filter (fun v => ~ (String.prefix "tile " v = true /\ find v "id=" = None)) q.
Proof.
  intros Hparse. rewrite put_impl_not_tile by done.
  unfold priority. rewrite Hparse.
  unfold BasicTileQueue_put_impl. simpl. f_equal.
  rewrite erase_remove_if_filter. apply list_filter_iff. intros v.
  apply cancelled_tile_spec.
Qed.

(** C3: for every predicate and every queue, [MessageQueue::remove_if]
    leaves as many payloads in the queue as there were: nothing is erased. *)
Theorem remove_if_keeps_size (pred : Payload -> bool) (q : list Payload) :
  length (MessageQueue_remove_if pred q) = length q.
Proof. apply std_remove_if_length. Qed.

Lemma priority_singleton (viewId : Z) (c : CursorPosition) (msg : string) :
  priority {[viewId := c]} msg = tile_intersects msg c.
Proof.
  unfold priority, tile_intersects. destruct (parse msg) as [tile|]; [|done].
  rewrite map_to_list_singleton. simpl. by rewrite orb_false_r.
Qed.

Lemma BasicTileQueue_put_impl_nil (value : Payload) :
  BasicTileQueue_put_impl value [] = [value].
Proof.
  unfold BasicTileQueue_put_impl. destruct (String.eqb value "canceltiles"); [|done].
  by rewrite erase_remove_if_filter.
Qed.

(** C4: a payload is priority exactly when it parses as a tile descriptor
    whose rectangle intersects a registered cursor rectangle; a priority
    payload whose key no entry has is pushed to the front, a payload that
    is not priority, is not [canceltiles] and whose key no entry has is
    appended to the back; so in scenario S3 (one cursor, a tile T1 that does
    not overlap it put before a tile T2 that does, with different keys) the
    queue yields T2 and then T1. *)
Theorem priority_placement :
  (forall (cursors : gmap Z CursorPosition) (msg : string),
      priority cursors msg = true <->
      exists tile, parse msg = Some tile /\
        exists (viewId : Z) (c : CursorPosition), cursors !! viewId = Some c /\
          intersectsWithRect tile (X c) (Y c) (Width c) (Height c) = true) /\
  (forall (cursors : gmap Z CursorPosition) (value : Payload) (q : list Payload),
      (forall e, e ∈ q -> tile_key e <> tile_key value) ->
      priority cursors value = true ->
      TileQueue_put_impl cursors value q = value :: q) /\
  (forall (cursors : gmap Z CursorPosition) (value : Payload) (q : list Payload),
      (forall e, e ∈ q -> tile_key e <> tile_key value) ->
      priority cursors value = false ->
      value <> "canceltiles" ->
      TileQueue_put_impl cursors value q = q ++ [value]) /\
  (forall (viewId : Z) (T1 T2 : Payload),
      let c := mkCursor 100 100 50 50 in
      tile_intersects T1 c = false ->
      tile_intersects T2 c = true ->
      tile_key T1 <> tile_key T2 ->
      let s := run [OpCursors {[viewId := c]}; OpPut T1; OpPut T2] in
      exists q1, MessageQueue_get_impl (_queue s) = Some (T2, q1) /\
                 MessageQueue_get_impl q1 = Some (T1, [])).
Proof.
  split_and!.
  - apply priority_spec.
  - intros cursors value q Hno Hp. by rewrite put_impl_fresh, Hp.
  - intros cursors value q Hno Hp Hne. rewrite put_impl_fresh, Hp by done.
    unfold BasicTileQueue_put_impl.
    by destruct (String.eqb_spec value "canceltiles").
  - intros viewId T1 T2 c H1 H2 Hk s. exists [T1]. split; [|done].
    subst s. unfold run. simpl.
    rewrite (put_impl_fresh _ T1 []) by (by intros e ?%elem_of_nil).
    rewrite priority_singleton, H1, BasicTileQueue_put_impl_nil.
    rewrite (put_impl_fresh _ T2 [T1]).
    + by rewrite priority_singleton, H2.
    + by intros e ->%list_elem_of_singleton.
Qed.

(** C5: [reprioritize] leaves a queue without an intersecting entry as it
    is, and otherwise moves the first entry whose tile intersects the cursor
    rectangle to index 0, the other entries keeping their relative order;
    applying it twice with the same cursor gives the same queue as applying
    it once. *)
Theorem reprioritize_moves_first (c : CursorPosition) (q : list Payload) :
  ((forall e, e ∈ q -> tile_intersects e c = false) -> reprioritize c q = q) /\
  (forall (i : nat) (e : Payload),
      q !! i = Some e ->
      tile_intersects e c = true ->
      (forall k e', (k < i)%nat -> q !! k = Some e' -> tile_intersects e' c = false) ->
      reprioritize c q = e :: take i q ++ drop (S i) q) /\
  reprioritize c (reprioritize c q) = reprioritize c q.
Proof.
  split_and!.
  - intros Hno. unfold reprioritize. by apply reprioritize_loop_none.
  - intros i e Hi He Hfirst. rewrite <- delete_take_drop.
    by apply reprioritize_found.
  - apply reprioritize_idem.
Qed.

Lemma substring_tile_prefix (msg : string) :
  String.substring 0 4 msg = "tile" <-> String.prefix "tile" msg = true.
Proof. by rewrite (String.prefix_correct "tile" msg). Qed.

(** C10: a payload enters the scan for duplicates exactly when the queue
    is not empty and its first four characters are [tile]: the put is the
    scan over the queue under that condition, and the put without a scan
    otherwise; under it the first entry with the key of the payload is
    overwritten (and then moved to the front for a priority payload), so
    for a text that begins with [tilecombine], which passes the test
    against [tile]; and the test against [tilecombine], which compares at
    most 10 characters with a literal of 11, succeeds for no payload. *)
Theorem dedup_scan_guard :
  (forall (q : list Payload) (msg : string),
      dedup_guard q msg = true <-> q <> [] /\ String.substring 0 4 msg = "tile") /\
  (forall (cursors : gmap Z CursorPosition) (value : Payload) (q : list Payload),
      let unscanned :=
        if priority cursors value then value :: q
        else BasicTileQueue_put_impl value q in
      TileQueue_put_impl cursors value q =
        if bool_decide (q <> [] /\ String.substring 0 4 value = "tile")
        then default unscanned (dedup_loop cursors value (length q) 0 q)
        else unscanned) /\
  (forall (cursors : gmap Z CursorPosition) (value : Payload) (q : list Payload)
          (j : nat) (e : Payload),
      String.substring 0 4 value = "tile" ->
      q !! j = Some e -> tile_key e = tile_key value ->
      (forall k e', (k < j)%nat -> q !! k = Some e' -> tile_key e' <> tile_key value) ->
      TileQueue_put_impl cursors value q = replaced cursors value j q) /\
  (forall (cursors : gmap Z CursorPosition) (value : Payload) (q : list Payload)
          (j : nat) (e : Payload),
      String.prefix "tilecombine" value = true ->
      q !! j = Some e -> tile_key e = tile_key value ->
      (forall k e', (k < j)%nat -> q !! k = Some e' -> tile_key e' <> tile_key value) ->
      TileQueue_put_impl cursors value q = replaced cursors value j q) /\
  (forall msg : string,
      String.prefix "tilecombine" msg = true -> tile_prefix_test msg = true) /\
  (forall msg : string, tilecombine_test msg = false).
Proof.
  assert (forall msg : string,
            String.prefix "tilecombine" msg = true -> String.prefix "tile" msg = true)
    as Hcombine.
  { intros msg Hp. apply String.prefix_correct in Hp. apply String.prefix_correct.
    simpl in *. destruct msg as [|c1 [|c2 [|c3 [|c4 rest]]]]; try discriminate.
    injection Hp as ? ? ? ? ?. subst. simpl. by destruct rest. }
  split_and!.
  - intros q msg. by rewrite dedup_guard_spec, substring_tile_prefix.
  - intros cursors value q unscanned. unfold TileQueue_put_impl. fold unscanned.
    destruct (dedup_guard q value) eqn:Hg.
    + apply dedup_guard_spec in Hg. rewrite <- substring_tile_prefix in Hg.
      rewrite bool_decide_eq_true_2 by done.
      by destruct (dedup_loop cursors value (length q) 0 q).
    + rewrite bool_decide_eq_false_2; [done|].
      rewrite substring_tile_prefix, <- dedup_guard_spec. congruence.
  - intros cursors value q j e Hp. apply put_impl_found.
    by apply substring_tile_prefix.
  - intros cursors value q j e Hp. apply put_impl_found. by apply Hcombine.
  - intros msg Hp. by apply tile_prefix_test_prefix, Hcombine.
  - apply tilecombine_test_false.
Qed.

End QueueFacts.

(** ** The poll timeout *)

Section TimeoutFacts.
Import Net.

Lemma wrap_small (bits z : Z) :
  0 < bits -> - 2 ^ (bits - 1) <= z < 2 ^ (bits - 1) -> wrap bits z = z.
Proof.
  intros Hb Hz. unfold wrap.
  assert (2 ^ bits = 2 * 2 ^ (bits - 1)) as ->.
  { rewrite <- Z.pow_succ_r by lia. f_equal. lia. }
  rewrite Z.mod_small by lia. lia.
Qed.

Lemma setupPollFds_timeout_default (pollSockets : list (Timestamp -> Timestamp))
    (timeout : Timestamp) :
  Forall (fun updateTimeout => updateTimeout = Socket_updateTimeout) pollSockets ->
  setupPollFds_timeout pollSockets timeout = timeout.
Proof.
  unfold setupPollFds_timeout. intros Hall.
  induction Hall as [|u l -> _ IH]; simpl; [done|]. apply IH.
Qed.

(** C6, as amended: the timeout handed to the system call is the
    difference between the deadline and now, a count of microseconds,
    divided by 1000, that is a count of milliseconds: when
    [timeoutMaxMs * 1000] fits an [int] and no polled socket contracts the
    deadline, it is [timeoutMaxMs] itself. *)
Theorem poll_timeout_is_milliseconds (now : Timestamp)
    (pollSockets : list (Timestamp -> Timestamp)) (timeoutMaxMs : Z) :
  0 <= now < 2 ^ 62 ->
  0 <= timeoutMaxMs <= 2147483 ->
  Forall (fun updateTimeout => updateTimeout = Socket_updateTimeout) pollSockets ->
  poll_timeout_arg now pollSockets timeoutMaxMs = timeoutMaxMs.
Proof.
  intros Hnow Ht Hall. unfold poll_timeout_arg.
  rewrite setupPollFds_timeout_default by done.
  unfold int_mul, Timespan, Timestamp_add, Timestamp_sub.
  rewrite (wrap_small 32 (timeoutMaxMs * 1000)) by lia.
  rewrite (wrap_small 64 (0 * 1000000 + timeoutMaxMs * 1000)) by lia.
  rewrite (wrap_small 64 (now + _)) by lia.
  replace (now + (0 * 1000000 + timeoutMaxMs * 1000) - now)
    with (timeoutMaxMs * 1000) by lia.
  rewrite (wrap_small 64) by lia.
  rewrite Z.quot_mul by lia. apply wrap_small; lia.
Qed.

End TimeoutFacts.

(** ** The stream socket *)

Section SocketFacts.
Import Net.
Context `{SocketHandlerInterface World} `{SocketIO World}.

(** C9: the mask of [getPollEvents] contains [POLLIN], and it contains
    [POLLOUT] exactly when the output buffer is not empty or the handler
    has queued writes. *)
Theorem getPollEvents_mask (s : State World) :
  Z.land (getPollEvents s) POLLIN = POLLIN /\
  (Z.land (getPollEvents s) POLLOUT = POLLOUT <->
   _outBuffer (buffers (socket s)) <> [] \/ hasQueuedWrites (world s) = true).
Proof.
  unfold getPollEvents, out_empty.
  destruct (decide (_outBuffer (buffers (socket s)) = [])) as [E|E].
  - rewrite bool_decide_eq_true_2 by done. simpl.
    destruct (hasQueuedWrites (world s)); (split; [done|]).
    + split; [by right|done].
    + split; [done|]. intros [?|?]; done.
  - rewrite bool_decide_eq_false_2 by done. simpl.
    split; [done|]. split; [by left|done].
Qed.

Lemma call_incoming_size (s : State World) :
  drains -> (in_size (state_of (call HandleIncomingMessage s)) <= in_size s)%nat.
Proof.
  intros Hd. unfold call, in_size. simpl.
  specialize (Hd (world s) (buffers (socket s))).
  destruct (handleIncomingMessage (world s) (buffers (socket s))) as [[c w] b].
  by destruct c.
Qed.

Lemma call_not_diverge (cb : Callback) (s s' : State World) : call cb s <> Diverge s'.
Proof.
  unfold call. destruct (handler cb (world s) (buffers (socket s))) as [[[] w] b]; done.
Qed.

Lemma incoming_loop_shrinking (fuel : nat) :
  drains ->
  forall (prev : option nat) (s : State World),
    match prev with
    | None => (in_size s < fuel)%nat
    | Some p => (in_size s <= p)%nat /\ ((in_size s < p)%nat -> (in_size s < fuel)%nat)
    end ->
    invoked_while_shrinking prev s (incoming_loop fuel (default 0%nat prev) s).
Proof.
  intros Hd. induction fuel as [|fuel IH]; intros prev s Hprev.
  - assert (incoming_test (default 0%nat prev) s = false) as Ht.
    { unfold incoming_test. destruct prev as [p|]; simpl in *; [|lia].
      destruct (Nat.eqb_spec p (in_size s)); [by rewrite andb_false_r|lia]. }
    unfold incoming_loop. rewrite Ht.
    destruct prev as [p|]; simpl in *; [|lia].
    apply iws_not_shrunk. lia.
  - cbn [incoming_loop].
    destruct (incoming_test (default 0%nat prev) s) eqn:Ht.
    + unfold incoming_test in Ht.
      apply andb_true_iff in Ht as [Hne Hch].
      apply negb_true_iff, Nat.eqb_neq in Hne, Hch.
      assert (forall p, prev = Some p -> (in_size s < p)%nat) as Hlt.
      { intros p ->. simpl in *. lia. }
      assert (in_size s <= fuel)%nat as Hfuel.
      { destruct prev as [p|]; simpl in *; [|lia].
        specialize (Hlt p eq_refl). lia. }
      pose proof (call_incoming_size s Hd) as Hsz.
      unfold bind. destruct (call HandleIncomingMessage s) as [[] s1|s1|s1] eqn:Hc.
      * eapply iws_invoke; [done..|].
        apply (IH (Some (in_size s)) s1). simpl in *. lia.
      * by eapply iws_throw.
      * by destruct (call_not_diverge _ _ _ Hc).
    + unfold incoming_test in Ht. apply andb_false_iff in Ht as [Ht|Ht].
      * apply negb_false_iff, Nat.eqb_eq in Ht. by apply iws_empty.
      * apply negb_false_iff, Nat.eqb_eq in Ht.
        destruct prev as [p|]; simpl in *.
        -- apply iws_not_shrunk. lia.
        -- by apply iws_empty.
Qed.

Lemma incoming_loop_changing (fuel : nat) (prev : option nat) (s : State World) :
  invoked_while_changing fuel prev s (incoming_loop fuel (default 0%nat prev) s).
Proof.
  revert prev s. induction fuel as [|fuel IH]; intros prev s; cbn [incoming_loop];
    destruct (incoming_test (default 0%nat prev) s) eqn:Ht.
  all: unfold incoming_test in Ht.
  all: try (apply andb_false_iff in Ht as [Ht|Ht];
            apply negb_false_iff, Nat.eqb_eq in Ht;
            [by apply iwc_empty|];
            destruct prev as [p|]; simpl in Ht;
            [by apply iwc_unchanged|by apply iwc_empty]).
  all: apply andb_true_iff in Ht as [Hne Hch];
       apply negb_true_iff, Nat.eqb_neq in Hne, Hch.
  all: assert (forall p, prev = Some p -> in_size s <> p) as Hp
         by (intros p ->; simpl in Hch; congruence).
  - by apply iwc_running.
  - unfold bind. destruct (call HandleIncomingMessage s) as [[] s1|s1|s1] eqn:Hc.
    + eapply iwc_invoke; [done..|]. apply (IH (Some (in_size s)) s1).
    + by eapply iwc_throw.
    + by destruct (call_not_diverge _ _ _ Hc).
Qed.

(** C8, as amended: whatever the handler, the loop of [handlePoll] invokes
    [handleIncomingMessage] exactly while the input buffer is non-empty
    and its size has changed during the previous invocation, whether it
    shrank or grew, a loop that has not returned after [fuel] invocations
    being about to make another; with a handler that never grows the input buffer this
    is while it shrank, and the loop returns; and an invocation that
    leaves the size of the input buffer unchanged is the last one of the
    loop. *)
Theorem incoming_loop_while_changing :
  (forall (fuel : nat) (s : State World),
      invoked_while_changing fuel None s (incoming_loop fuel 0 s)) /\
  (drains ->
   forall s : State World,
     invoked_while_shrinking None s (incoming_loop (S (in_size s)) 0 s)) /\
  (forall (fuel oldSize : nat) (s s1 : State World),
      in_size s <> 0%nat ->
      oldSize <> in_size s ->
      call HandleIncomingMessage s = Ret tt s1 ->
      in_size s1 = in_size s ->
      incoming_loop (S fuel) oldSize s = Ret tt s1 /\
      calls s1 = calls s ++ [HandleIncomingMessage]).
Proof.
  split_and!.
  - intros fuel s. apply (incoming_loop_changing fuel None s).
  - intros Hd s. apply (incoming_loop_shrinking (S (in_size s)) Hd None s). simpl. lia.
  - intros fuel oldSize s s1 Hne Hold Hc Hsame. cbn [incoming_loop].
    assert (incoming_test oldSize s = true) as ->.
    { unfold incoming_test. apply andb_true_iff.
      split; apply negb_true_iff, Nat.eqb_neq; lia. }
    unfold bind. rewrite Hc.
    assert (incoming_test (in_size s) s1 = false) as Ht.
    { unfold incoming_test. rewrite Hsame, Nat.eqb_refl. by rewrite andb_false_r. }
    split.
    + destruct fuel; cbn [incoming_loop]; by rewrite Ht.
    + unfold call in Hc.
      destruct (handler _ _ _) as [[[] w] b]; by simplify_eq.
Qed.

Lemma triple_bind {A B} (P : State World -> Prop) (m : M World A) (k : A -> M World B)
    (Q : A -> State World -> Prop) (R : B -> State World -> Prop) (E D : State World -> Prop) :
  triple P m Q E D -> (forall a, triple (Q a) (k a) R E D) ->
  triple P (bind m k) R E D.
Proof.
  intros Hm Hk s HP. unfold bind. specialize (Hm s HP).
  destruct (m s) as [a s'|s'|s']; [|done..]. by apply Hk.
Qed.

Lemma triple_ret {A} (a : A) (P : State World -> Prop) (Q : A -> State World -> Prop)
    (E D : State World -> Prop) :
  (forall s, P s -> Q a s) -> triple P (ret a) Q E D.
Proof. intros HPQ s HP. by apply HPQ. Qed.

Lemma triple_get (P : State World -> Prop) (E D : State World -> Prop) :
  triple P get (fun s0 s => s0 = s /\ P s) E D.
Proof. by intros s HP. Qed.

Lemma triple_weaken {A} (P : State World -> Prop) (m : M World A)
    (Q Q' : A -> State World -> Prop) (E E' D D' : State World -> Prop) :
  triple P m Q E D ->
  (forall a s, Q a s -> Q' a s) -> (forall s, E s -> E' s) ->
  (forall s, D s -> D' s) ->
  triple P m Q' E' D'.
Proof.
  intros Hm HQ HE HD s HP. specialize (Hm s HP).
  destruct (m s); auto.
Qed.

Lemma triple_when (b : bool) (m : M World unit) (P : State World -> Prop)
    (Q : unit -> State World -> Prop) (E D : State World -> Prop) :
  (b = true -> triple P m Q E D) -> (b = false -> forall s, P s -> Q tt s) ->
  triple P (when b m) Q E D.
Proof.
  intros Ht Hf. destruct b; simpl; [by apply Ht|].
  intros s HP. by apply Hf.
Qed.

Lemma quiet_ret {A} (a : A) : quiet (ret (World:=World) a).
Proof. by intros s Hs. Qed.

Lemma quiet_get : quiet (get (World:=World)).
Proof. by intros s Hs. Qed.

Lemma quiet_bind {A B} (m : M World A) (k : A -> M World B) :
  quiet m -> (forall a, quiet (k a)) -> quiet (bind m k).
Proof. intros Hm Hk. by apply (triple_bind _ _ _ (fun _ => connected)). Qed.

Lemma quiet_when (b : bool) (m : M World unit) : quiet m -> quiet (when b m).
Proof. intros Hm. destruct b; [done|apply quiet_ret]. Qed.

Lemma quiet_call (cb : Callback) : cb <> OnDisconnect -> quiet (call cb).
Proof.
  intros Hcb s [Hc Hn]. unfold call.
  destruct (handler cb (world s) (buffers (socket s))) as [[c w] b].
  assert (connected (mkState (mkStreamSocket b (_closed (socket s))) w (calls s ++ [cb]))).
  { split; [done|]. simpl. rewrite elem_of_app, list_elem_of_singleton.
    intros [?|?]; [done|congruence]. }
  by destruct c.
Qed.

Lemma quiet_readIncomingData (fuel : nat) : quiet (readIncomingData fuel).
Proof.
  induction fuel as [|fuel IH]; intros s Hs; [done|].
  cbn [readIncomingData].
  destruct (readData (world s) read_chunk) as [[w len] buf].
  assert (connected (mkState (socket s) w (calls s))) as Hs1 by done.
  destruct ((len <? 0) && (errno w =? EINTR)); [by apply IH|].
  match goal with |- context [if len =? read_chunk then _ ?s2 else _] =>
    assert (connected s2) as Hs2 by (by destruct (0 <? len)) end.
  destruct (len =? read_chunk); [by apply IH|done].
Qed.

Lemma quiet_writeOutgoingData (fuel : nat) : quiet (writeOutgoingData fuel).
Proof.
  induction fuel as [|fuel IH]; intros s Hs; [done|].
  cbn [writeOutgoingData].
  destruct (writeData (world s) _) as [w len].
  assert (connected (mkState (socket s) w (calls s))) as Hs1 by done.
  destruct ((len <? 0) && (errno w =? EINTR)); [by apply IH|].
  destruct (0 <? len); [|done].
  case_bool_decide; [done|]. by apply IH.
Qed.

Lemma quiet_incoming_loop (fuel oldSize : nat) : quiet (incoming_loop fuel oldSize).
Proof.
  revert oldSize. induction fuel as [|fuel IH]; intros oldSize s Hs;
    cbn [incoming_loop]; destruct (incoming_test oldSize s); try done.
  apply (quiet_bind (call HandleIncomingMessage)); [by apply quiet_call| |done].
  intros _. apply IH.
Qed.

Lemma triple_after_quiet {A} (m : M World A) (k : A -> M World HandleResult) :
  quiet m ->
  (forall a, triple connected (k a) after_handlePoll
               (fun s => connected s \/ closed_once s) connected) ->
  triple connected (bind m k) after_handlePoll
    (fun s => connected s \/ closed_once s) connected.
Proof.
  intros Hm Hk. apply (triple_bind _ _ _ (fun _ => connected)); [|done].
  eapply triple_weaken; [exact Hm|auto..].
Qed.

Lemma handlePoll_connected (fuel : nat) (events : Z) :
  triple connected (handlePoll fuel events) after_handlePoll
    (fun s => connected s \/ closed_once s) connected.
Proof.
  unfold handlePoll.
  apply triple_after_quiet; [apply quiet_readIncomingData|intros r].
  apply triple_after_quiet; [apply quiet_incoming_loop|intros _].
  apply triple_after_quiet; [apply quiet_get|intros s0].
  apply triple_after_quiet; [by apply quiet_when, quiet_call|intros _].
  apply triple_after_quiet; [apply quiet_get|intros s1].
  apply triple_after_quiet.
  { destruct (has events POLLOUT || negb (out_empty s1)); [|apply quiet_ret].
    apply quiet_bind; [apply quiet_when, quiet_writeOutgoingData|intros _].
    apply quiet_bind; [apply quiet_get|intros s2; apply quiet_ret]. }
  intros closed s [Hc Hn]. destruct closed; unfold bind, when, get, ret; simpl.
  - unfold call. simpl.
    destruct (onDisconnect (world s) (buffers (socket s))) as [[c w] b].
    assert (closed_once (mkState (mkStreamSocket b true) w (calls s ++ [OnDisconnect])))
      as Hdone by (split; [done|by exists (calls s)]).
    destruct c; [done|by right].
  - rewrite Hc. by split.
Qed.

Lemma dispatch_connected (fuel : nat) (revents : Z) :
  triple connected (dispatch fuel revents)
    (fun res s => match res with
                  | CONTINUE => connected s
                  | SOCKET_CLOSED => connected s \/ closed_once s
                  end)
    (fun _ => False)
    connected.
Proof.
  unfold dispatch. destruct (revents =? 0); [by apply triple_ret|].
  intros s Hs. unfold catch. pose proof (handlePoll_connected fuel revents s Hs) as Hp.
  destruct (handlePoll fuel revents s) as [[] s'|s'|s']; simpl; auto.
Qed.

Lemma polled_connected (fuel : nat) (rounds : list Z) :
  triple connected (polled fuel rounds)
    (fun _ s => connected s \/ closed_once s) (fun _ => False) connected.
Proof.
  induction rounds as [|revents rounds IH]; simpl.
  - apply triple_ret. by left.
  - eapply triple_bind; [apply dispatch_connected|].
    intros [].
    + apply IH.
    + by apply triple_ret.
Qed.

Lemma dtor_disconnects :
  triple (fun s => connected s \/ closed_once s) dtor
    (fun _ => disconnected_once) disconnected_once (fun _ => False).
Proof.
  intros s Hs. unfold dtor, bind, get, when.
  destruct Hs as [[Hc Hn]|[Hc Hd]]; rewrite Hc; simpl; [|done].
  unfold call. simpl.
  destruct (onDisconnect (world s) (buffers (socket s))) as [[c w] b].
  assert (disconnected_once (mkState (mkStreamSocket b false) w (calls s ++ [OnDisconnect])))
    by (by exists (calls s)).
  rewrite Hc. by destruct c.
Qed.

Lemma connected_ctor (w : World) : connected (ctor w).
Proof. split; [done|]. apply not_elem_of_nil. Qed.

(** C7, as amended: for a socket driven by the poll, which dispatches no
    further [handlePoll] once one has returned [SOCKET_CLOSED] or thrown,
    and then destroyed, [onDisconnect] is invoked exactly once and no
    handler call follows it; as long as a loop is still running it has not
    been invoked. *)
Theorem polled_life_disconnects_once (fuel : nat) (rounds : list Z) (w : World) :
  match polled_life fuel rounds w with
  | Ret _ s | Throw s => disconnected_once s
  | Diverge s => OnDisconnect ∉ calls s
  end.
Proof.
  unfold polled_life.
  pose proof (triple_bind connected (polled fuel rounds) (fun _ => dtor)
    (fun _ s => connected s \/ closed_once s) (fun _ => disconnected_once)
    disconnected_once (fun s => OnDisconnect ∉ calls s)) as Hlife.
  apply Hlife; [| |apply connected_ctor].
  - eapply triple_weaken; [apply polled_connected|..]; simpl; [eauto|done|].
    by intros s [_ Hn].
  - intros _. eapply triple_weaken; [apply dtor_disconnects|..]; simpl; eauto.
Qed.

End SocketFacts.

(** * Further properties *)

(** ** What [std::remove_if] brings to the front *)

Section AlgorithmOrder.
Import Queue.
Context `{MoveAssign A}.
Variable pred : A -> bool.

Local Abbreviation kept := (filter (fun v => pred v = false)).

Lemma remove_if_loop_result_le (n first result : nat) (q : list A) :
  (result <= first)%nat -> (first <= length q)%nat ->
  ((remove_if_loop pred n first result q).2 <= length q)%nat.
Proof.
  revert first result q. induction n as [|n IH]; intros first result q Hr Hf; simpl; [lia|].
  destruct (q !! first) as [v|] eqn:Hv; simpl; [|lia].
  apply lookup_lt_Some in Hv.
  destruct (pred v).
  - apply IH; lia.
  - etrans; [apply IH; rewrite ?length_insert; lia|]. by rewrite !length_insert.
Qed.

Lemma std_remove_if_result (q : list A) :
  (std_remove_if pred q).2 = length (kept q).
Proof.
  pose proof (erase_remove_if_filter pred q) as He.
  unfold erase_remove_if in He.
  assert ((std_remove_if pred q).2 <= length (std_remove_if pred q).1)%nat as Hle.
  { rewrite std_remove_if_length. unfold std_remove_if.
    pose proof (find_if_le pred q).
    destruct (Nat.eqb_spec (find_if pred q) (length q)); simpl; [lia|].
    apply remove_if_loop_result_le; lia. }
  destruct (std_remove_if pred q) as [q' r]. simpl in *.
  rewrite <- He, length_take. lia.
Qed.

Lemma std_remove_if_unmatched_first (q : list A) :
  take (length (kept q)) (std_remove_if pred q).1 = kept q /\
  (Forall (fun v => pred v = false) q -> (std_remove_if pred q).1 = q).
Proof.
  assert (take (length (kept q)) (std_remove_if pred q).1 = kept q) as Htake.
  { rewrite <- std_remove_if_result.
    pose proof (erase_remove_if_filter pred q) as He. unfold erase_remove_if in He.
    by destruct (std_remove_if pred q). }
  split; [done|]. intros Hall.
  assert (kept q = q) as Hk.
  { clear Htake. induction Hall as [|v l Hv _ IH]; [done|].
    rewrite filter_cons_True by done. by rewrite IH. }
  rewrite Hk in Htake. rewrite <- Htake at 2.
  rewrite take_ge; [done|]. by rewrite std_remove_if_length.
Qed.

End AlgorithmOrder.

(** ** The queue policy: order, length and keys *)

Section QueueLaws.
Import CxxString Queue Scenario.
Context `{TileDescriptor TileDesc} `{MoveAssign Payload}.

(** X1: [MessageQueue::remove_if] brings the payloads that do not satisfy
    the predicate to the front of the queue, in their order; a queue none
    of whose payloads satisfies the predicate is left as it is. *)
Theorem remove_if_unmatched_first (pred : Payload -> bool) (q : list Payload) :
  take (length (filter (fun v => pred v = false) q)) (MessageQueue_remove_if pred q) =
    filter (fun v => pred v = false) q /\
  (Forall (fun v => pred v = false) q -> MessageQueue_remove_if pred q = q).
Proof. apply std_remove_if_unmatched_first. Qed.

(** Payloads that are not [tile] texts. *)
Local Abbreviation others := (filter (fun e : Payload => String.prefix "tile" e = false)).

Lemma others_insert_tile (q : list Payload) (j : nat) (e value : Payload) :
  q !! j = Some e -> String.prefix "tile" e = true -> String.prefix "tile" value = true ->
  others (<[j := value]> q) = others q /\ others (delete j q) = others q.
Proof.
  intros Hj He Hv.
  rewrite insert_take_drop by (by apply lookup_lt_Some in Hj).
  rewrite delete_take_drop.
  rewrite <- (take_drop_middle q j e Hj) at 3 6.
  rewrite !filter_app, !filter_cons_False by congruence. done.
Qed.

Lemma others_kept_cancelled (q : list Payload) :
  others (filter (fun v => cancelled_tile v = false) q) = others q.
Proof.
  induction q as [|e q IH]; [done|].
  destruct (cancelled_tile e) eqn:Hc.
  - rewrite (filter_cons_False _ e) by congruence.
    rewrite (filter_cons_False _ e); [done|].
    unfold cancelled_tile in Hc. apply andb_true_iff in Hc as [Hc _].
    apply Z.eqb_eq, (prefix_compare "tile " e), String.prefix_correct in Hc.
    intros Hp. apply not_true_iff_false in Hp. apply Hp, String.prefix_correct.
    simpl in *. destruct e as [|c1 [|c2 [|c3 [|c4 [|c5 rest]]]]]; try discriminate.
    injection Hc as ? ? ? ? ? ?. subst. simpl. by destruct rest.
  - rewrite (filter_cons_True _ e) by done.
    destruct (String.prefix "tile" e) eqn:Hp.
    + rewrite !(filter_cons_False _ e) by congruence. done.
    + rewrite !(filter_cons_True _ e) by done. by rewrite IH.
Qed.

(** X2: a put never removes, reorders or rewrites a payload that does not
    begin with [tile]: of those payloads the queue holds after the put what
    it held before, in the same order, and the new payload, when it does
    not begin with [tile] either, at the front (priority, or
    [canceltiles]) or at the back. *)
Theorem put_keeps_other_payloads (cursors : gmap Z CursorPosition)
    (value : Payload) (q : list Payload) :
  others (TileQueue_put_impl cursors value q) =
    if String.prefix "tile" value then others q
    else if priority cursors value || String.eqb value "canceltiles"
         then value :: others q
         else others q ++ [value].
Proof.
  destruct (String.prefix "tile" value) eqn:Hp.
  - destruct (first_with_key value q) as [Hno|(j & e & Hj & Hk & Hfirst)].
    + rewrite put_impl_fresh by done. destruct (priority cursors value).
      * by rewrite filter_cons_False by congruence.
      * unfold BasicTileQueue_put_impl, MessageQueue_put_impl.
        destruct (String.eqb_spec value "canceltiles") as [->|_]; [done|].
        rewrite filter_app, filter_cons_False by congruence. by rewrite app_nil_r.
    + rewrite (put_impl_found cursors value q j e) by done.
      pose proof (same_key_prefix e value Hp Hk) as Hpe.
      destruct (others_insert_tile q j e value Hj Hpe Hp) as [Hins Hdel].
      unfold replaced. destruct (priority cursors value); [|done].
      by rewrite delete_insert_same, filter_cons_False by congruence.
  - rewrite put_impl_not_tile by done. destruct (priority cursors value); simpl.
    + by rewrite filter_cons_True.
    + unfold BasicTileQueue_put_impl, MessageQueue_put_impl.
      destruct (String.eqb value "canceltiles").
      * rewrite filter_cons_True by done.
        by rewrite erase_remove_if_filter, others_kept_cancelled.
      * rewrite filter_app. by rewrite (filter_cons_True _ value []).
Qed.

(** X3: payloads that do not begin with [tile], are not [canceltiles] and
    are not priority are queued first in, first out: putting them one
    after the other appends them to the queue in that order. *)
Theorem put_plain_is_fifo (cursors : gmap Z CursorPosition)
    (values q : list Payload) :
  Forall (fun value => String.prefix "tile" value = false /\
                       value <> "canceltiles" /\
                       priority cursors value = false) values ->
  foldl (fun q value => TileQueue_put_impl cursors value q) q values = q ++ values.
Proof.
  intros Hall. revert q. induction Hall as [|value values (Hp & Hc & Hpr) _ IH]; intros q; simpl.
  - by rewrite app_nil_r.
  - rewrite put_impl_not_tile, Hpr by done.
    unfold BasicTileQueue_put_impl, MessageQueue_put_impl.
    destruct (String.eqb_spec value "canceltiles"); [done|].
    by rewrite IH, <- app_assoc.
Qed.

(** X4: a put makes the queue at most one payload longer; the put of a
    [tile] payload whose key an entry has leaves the length as it is; the
    put of a payload other than [canceltiles] whose key no entry has makes
    the queue one longer. *)
Theorem put_length (cursors : gmap Z CursorPosition) (value : Payload)
    (q : list Payload) :
  (length (TileQueue_put_impl cursors value q) <= S (length q))%nat /\
  (String.prefix "tile" value = true ->
   (exists e, e ∈ q /\ tile_key e = tile_key value) ->
   length (TileQueue_put_impl cursors value q) = length q) /\
  (value <> "canceltiles" ->
   (forall e, e ∈ q -> tile_key e <> tile_key value) ->
   length (TileQueue_put_impl cursors value q) = S (length q)).
Proof.
  assert (forall j e, q !! j = Some e ->
            length (replaced cursors value j q) = length q) as Hrep.
  { intros j e Hj. unfold replaced. destruct (priority cursors value).
    - rewrite delete_insert_same. simpl. rewrite length_delete by eauto.
      apply lookup_lt_Some in Hj. lia.
    - by rewrite length_insert. }
  assert ((length (if priority cursors value then value :: q
                   else BasicTileQueue_put_impl value q) <= S (length q))%nat) as Hfall.
  { destruct (priority cursors value); [done|].
    unfold BasicTileQueue_put_impl, MessageQueue_put_impl.
    destruct (String.eqb value "canceltiles"); simpl.
    - rewrite erase_remove_if_filter. pose proof (length_filter (fun v => cancelled_tile v = false) q). lia.
    - rewrite length_app. simpl. lia. }
  split_and!.
  - destruct (String.prefix "tile" value) eqn:Hp.
    + destruct (first_with_key value q) as [Hno|(j & e & Hj & Hk & Hfirst)].
      * by rewrite put_impl_fresh.
      * rewrite (put_impl_found cursors value q j e), (Hrep j e) by done. lia.
    + by rewrite put_impl_not_tile.
  - intros Hp (e' & He' & Hk').
    destruct (first_with_key value q) as [Hno|(j & e & Hj & Hk & Hfirst)].
    + by destruct (Hno e' He').
    + by rewrite (put_impl_found cursors value q j e), (Hrep j e).
  - intros Hc Hno. rewrite put_impl_fresh by done.
    destruct (priority cursors value); [done|].
    unfold BasicTileQueue_put_impl, MessageQueue_put_impl.
    destruct (String.eqb_spec value "canceltiles"); [done|].
    rewrite length_app. simpl. lia.
Qed.

Lemma put_impl_priority_front (cursors : gmap Z CursorPosition) (value : Payload)
    (q : list Payload) :
  priority cursors value = true ->
  exists rest, TileQueue_put_impl cursors value q = value :: rest /\ rest ≡ₚ
    match list_find (fun e => tile_key e = tile_key value) q with
    | Some (j, _) => if String.prefix "tile" value then delete j q else q
    | None => q
    end.
Proof.
  intros Hpr. destruct (String.prefix "tile" value) eqn:Hp.
  - destruct (list_find (fun e => tile_key e = tile_key value) q) as [[j e]|] eqn:Hf.
    + apply list_find_Some in Hf as (Hj & Hk & Hfirst).
      rewrite (put_impl_found cursors value q j e); [|done..|].
      * unfold replaced. rewrite Hpr, delete_insert_same. by eexists.
      * intros k e' Hlt Hk'. by apply (Hfirst k e').
    + apply list_find_None in Hf. rewrite Forall_forall in Hf.
      rewrite put_impl_fresh, Hpr by done. by eexists.
  - rewrite put_impl_not_tile, Hpr by done. exists q. split; [done|].
    by destruct (list_find _ q) as [[j e]|].
Qed.

(** X5: after the put of a priority payload that payload is at the front
    of the queue, and the next get returns it. *)
Theorem put_priority_goes_first (cursors : gmap Z CursorPosition) (value : Payload)
    (q : list Payload) :
  priority cursors value = true ->
  head (TileQueue_put_impl cursors value q) = Some value /\
  MessageQueue_get_impl (TileQueue_put_impl cursors value q) =
    Some (value, tail (TileQueue_put_impl cursors value q)).
Proof.
  intros Hpr. destruct (put_impl_priority_front cursors value q Hpr) as (rest & -> & _).
  done.
Qed.

(** X6: [reprioritize] loses and adds no payload: the queue after it is a
    permutation of the queue before, of the same length; and the payload
    it leaves at the front intersects the cursor, unless the queue is
    unchanged. *)
Theorem reprioritize_permutes (c : CursorPosition) (q : list Payload) :
  reprioritize c q ≡ₚ q /\ length (reprioritize c q) = length q /\
  (forall front, head (reprioritize c q) = Some front ->
     tile_intersects front c = true \/ reprioritize c q = q).
Proof.
  split_and!.
  - apply reprioritize_perm.
  - by rewrite (reprioritize_perm c q).
  - intros front Hfront.
    destruct (first_intersecting c q) as [Hno|(j & e & Hj & Hi & Hfirst)].
    + right. unfold reprioritize. by apply reprioritize_loop_none.
    + left. rewrite (reprioritize_found c q j e) in Hfront by done.
      by injection Hfront as <-.
Qed.

Lemma BasicTileQueue_put_impl_canceltiles (q : list Payload) :
  BasicTileQueue_put_impl "canceltiles" q =
    "canceltiles" :: filter (fun v => cancelled_tile v = false) q.
Proof. unfold BasicTileQueue_put_impl. simpl. by rewrite erase_remove_if_filter. Qed.

(** X7: after [BasicTileQueue::put_impl] of [canceltiles] no entry of the
    queue is a tile without [id=]; putting [canceltiles] again removes
    nothing and only adds another [canceltiles] at the front; the queue
    has grown by one payload at most. *)
Theorem canceltiles_purges (q : list Payload) :
  let q' := BasicTileQueue_put_impl "canceltiles" q in
  (forall e, e ∈ q' -> cancelled_tile e = false) /\
  BasicTileQueue_put_impl "canceltiles" q' = "canceltiles" :: q' /\
  (length q' <= S (length q))%nat.
Proof.
  intros q'. subst q'. rewrite !BasicTileQueue_put_impl_canceltiles.
  assert (cancelled_tile "canceltiles" = false) as Hc by reflexivity.
  split_and!.
  - intros e [->|He]%elem_of_cons; [done|].
    by apply list_elem_of_filter in He as [He _].
  - f_equal. rewrite filter_cons_True by done. f_equal.
    induction q as [|e q IH]; [done|].
    destruct (cancelled_tile e) eqn:E.
    + by rewrite (filter_cons_False _ e) by congruence.
    + rewrite (filter_cons_True _ e) by done.
      rewrite (filter_cons_True _ e) by done. by rewrite IH.
  - simpl. pose proof (length_filter (fun v => cancelled_tile v = false) q). lia.
Qed.

(** X8: after a put the queue is not empty: [wait_impl] holds and
    [get_impl] returns a payload, so that a [get] that follows a [put]
    does not block. *)
Theorem put_makes_non_empty (cursors : gmap Z CursorPosition) (value : Payload)
    (q : list Payload) :
  MessageQueue_wait_impl (TileQueue_put_impl cursors value q) = true /\
  exists result q', MessageQueue_get_impl (TileQueue_put_impl cursors value q) =
                      Some (result, q').
Proof.
  pose proof (put_impl_elem cursors value q) as Hin.
  destruct (TileQueue_put_impl cursors value q) as [|front q'].
  - by apply elem_of_nil in Hin.
  - split; [done|]. by exists front, q'.
Qed.

(** X9: registering more cursors never takes priority away: a payload
    that is priority for a map of cursors is priority for every map that
    extends it. *)
Theorem priority_grows_with_cursors (cursors cursors' : gmap Z CursorPosition)
    (msg : string) :
  cursors ⊆ cursors' -> priority cursors msg = true -> priority cursors' msg = true.
Proof.
  intros Hsub. rewrite !priority_spec.
  intros (tile & Hp & v & c & Hl & Hi). exists tile. split; [done|].
  exists v, c. split; [|done]. by eapply lookup_weaken.
Qed.

(** In a queue with unique tile keys, tile entries at different positions
    have different keys. *)
Lemma unique_keys_positions (q : list Payload) (i j : nat) (e1 e2 : Payload) :
  NoDup (tile_keys q) ->
  q !! i = Some e1 -> q !! j = Some e2 ->
  String.prefix "tile" e1 = true -> tile_key e1 = tile_key e2 -> i = j.
Proof.
  intros Hnd Hi Hj Hp Hk.
  assert (e1 ∈ q) as Hin by (by apply list_elem_of_lookup_2 in Hi).
  pose proof (one_with_key e1 q Hnd Hin Hp) as Hone.
  rewrite <- (take_drop_middle q i e1 Hi) in Hone.
  rewrite filter_app, filter_cons_True in Hone by done.
  assert (filter (fun x => tile_key x = tile_key e1) (take i q) = [] /\
          filter (fun x => tile_key x = tile_key e1) (drop (S i) q) = []) as [Ht Hd].
  { destruct (filter _ (take i q)) as [|? [|? ?]]; simplify_list_eq; done. }
  destruct (Nat.lt_total i j) as [Hlt|[->|Hgt]]; [|done|]; exfalso.
  - assert (e2 ∈ filter (fun x => tile_key x = tile_key e1) (drop (S i) q)) as Hx.
    { apply list_elem_of_filter. split; [done|].
      apply list_elem_of_lookup. exists (j - S i)%nat.
      rewrite lookup_drop, <- Hj. f_equal. lia. }
    rewrite Hd in Hx. by apply elem_of_nil in Hx.
  - assert (e2 ∈ filter (fun x => tile_key x = tile_key e1) (take i q)) as Hx.
    { apply list_elem_of_filter. split; [done|].
      apply list_elem_of_lookup. exists j. by rewrite lookup_take_lt. }
    rewrite Ht in Hx. by apply elem_of_nil in Hx.
Qed.

(** X10: in every queue built from the empty one by put, get, clear,
    reprioritize and changes of the cursors, a tile entry shares its
    normalized key with no entry at another position. *)
Theorem reachable_tiles_have_distinct_keys (ops : list Op) (i j : nat)
    (e1 e2 : Payload) :
  _queue (run ops) !! i = Some e1 ->
  _queue (run ops) !! j = Some e2 ->
  String.prefix "tile" e1 = true ->
  i <> j ->
  tile_key e1 <> tile_key e2.
Proof.
  intros Hi Hj Hp Hne Hk. apply Hne.
  by apply (unique_keys_positions (_queue (run ops)) i j e1 e2 (run_keys_unique ops)).
Qed.

(** X11: putting the same [tile] payload twice in a row is the same as
    putting it once: the second put leaves the queue as the first put
    made it. *)
Theorem put_tile_again_changes_nothing (ops : list Op) (value : Payload) :
  String.prefix "tile" value = true ->
  let s := step (run ops) (OpPut value) in
  _queue (step s (OpPut value)) = _queue s.
Proof.
  intros Hp s.
  assert (NoDup (tile_keys (_queue s))) as Hnd
    by apply (step_keys_unique (run ops) (OpPut value)), run_keys_unique.
  assert (value ∈ _queue s) as Hin by apply put_impl_elem.
  assert (priority (_cursorPositions (run ops)) value = true ->
          head (_queue s) = Some value) as Hhead.
  { intros Hpr. unfold s. simpl.
    by destruct (put_impl_priority_front (_cursorPositions (run ops)) value
                   (_queue (run ops)) Hpr) as (rest & -> & _). }
  change (_queue (step s (OpPut value)))
    with (TileQueue_put_impl (_cursorPositions (run ops)) value (_queue s)).
  remember (_queue s) as q1 eqn:E. clear E s.
  destruct (first_with_key value q1) as [Hno|(j & e & Hj & Hk & Hfirst)].
  { by destruct (Hno value Hin). }
  apply list_elem_of_lookup in Hin as [i Hi].
  assert (i = j) as ->.
  { apply (unique_keys_positions q1 i j value e Hnd Hi Hj Hp). by symmetry. }
  assert (e = value) as -> by congruence.
  rewrite (put_impl_found _ value _ j value) by done.
  unfold replaced. rewrite list_insert_id by done.
  destruct (priority (_cursorPositions (run ops)) value) eqn:Hpr; [|done].
  specialize (Hhead eq_refl).
  destruct q1 as [|front rest]; [done|]. simpl in Hhead. injection Hhead as ->.
  destruct j as [|j]; [done|]. exfalso.
  by apply (Hfirst 0%nat value); [lia|done|].
Qed.

End QueueLaws.

(** ** The poll timeout: bounds *)

Section TimeoutBounds.
Import Net.

(** X20: when [timeoutMaxMs * 1000] fits an [int] and every polled socket
    only brings the deadline forward, not before now, the timeout handed
    to the system call is between 0 and [timeoutMaxMs]. *)
Theorem poll_timeout_only_contracts (now : Timestamp)
    (pollSockets : list (Timestamp -> Timestamp)) (timeoutMaxMs : Z) :
  0 <= now < 2 ^ 62 ->
  0 <= timeoutMaxMs <= 2147483 ->
  Forall (fun updateTimeout : Timestamp -> Timestamp =>
            forall t, now <= t -> now <= updateTimeout t <= t) pollSockets ->
  0 <= poll_timeout_arg now pollSockets timeoutMaxMs <= timeoutMaxMs.
Proof.
  intros Hnow Ht Hall. unfold poll_timeout_arg.
  unfold int_mul, Timespan, Timestamp_add, Timestamp_sub.
  rewrite (wrap_small 32 (timeoutMaxMs * 1000)) by lia.
  rewrite (wrap_small 64 (0 * 1000000 + timeoutMaxMs * 1000)) by lia.
  rewrite (wrap_small 64 (now + _)) by lia.
  assert (forall t, now <= t <= now + timeoutMaxMs * 1000 ->
            now <= setupPollFds_timeout pollSockets t <= now + timeoutMaxMs * 1000) as Hfold.
  { unfold setupPollFds_timeout. induction Hall as [|u l Hu _ IH]; intros t Hb; simpl; [done|].
    apply IH. specialize (Hu t). lia. }
  specialize (Hfold (now + (0 * 1000000 + timeoutMaxMs * 1000))).
  set (timeout := setupPollFds_timeout _ _) in *.
  assert (now <= timeout <= now + timeoutMaxMs * 1000) as Hb by (apply Hfold; lia).
  rewrite (wrap_small 64) by lia.
  assert (0 <= (timeout - now) ÷ 1000 <= timeoutMaxMs) as Hq.
  { split; [apply Z.quot_pos; lia|].
    apply Z.quot_le_upper_bound; lia. }
  rewrite wrap_small by lia. done.
Qed.

End TimeoutBounds.

(** ** The stream socket: buffers and handler calls *)

Section SocketLaws.
Import Net.
Context `{SocketHandlerInterface World} `{SocketIO World}.

Lemma readIncomingData_frame (fuel : nat) (s : State World) :
  let r := readIncomingData fuel s in
  (exists data, _inBuffer (buffers (socket (state_of r))) =
                  _inBuffer (buffers (socket s)) ++ data) /\
  _outBuffer (buffers (socket (state_of r))) = _outBuffer (buffers (socket s)) /\
  same_but_buffers s (state_of r) /\
  (forall s', r <> Throw s').
Proof.
  revert s. induction fuel as [|fuel IH]; intros s.
  { simpl. split_and!; [by exists []; rewrite app_nil_r|done|done|done]. }
  cbn [readIncomingData].
  destruct (readData (world s) read_chunk) as [[w len] buf].
  set (s1 := mkState (socket s) w (calls s)).
  destruct ((len <? 0) && (errno w =? EINTR)); [apply (IH s1)|].
  destruct (0 <? len).
  - set (s2 := set_buffers _ s1).
    assert ((exists data, _inBuffer (buffers (socket s2)) =
                            _inBuffer (buffers (socket s)) ++ data) /\
            _outBuffer (buffers (socket s2)) = _outBuffer (buffers (socket s)) /\
            same_but_buffers s s2) as (Hin & Hout & Hsame) by (split_and!; [by eexists|done..]).
    destruct (len =? read_chunk); [|done].
    destruct (IH s2) as ((data & Hd) & Ho & (Hc & Hl) & Ht).
    destruct Hin as [data0 Hd0]. destruct Hsame as [Hc0 Hl0].
    split_and!; [|congruence|split; congruence|done].
    exists (data0 ++ data). rewrite Hd, Hd0. by rewrite app_assoc.
  - destruct (len =? read_chunk); [apply (IH s1)|].
    simpl. split_and!; [by exists []; rewrite app_nil_r|done|done|done].
Qed.

Lemma writeOutgoingData_frame (fuel : nat) (s : State World) :
  let r := writeOutgoingData fuel s in
  (exists n, _outBuffer (buffers (socket (state_of r))) =
               drop n (_outBuffer (buffers (socket s)))) /\
  _inBuffer (buffers (socket (state_of r))) = _inBuffer (buffers (socket s)) /\
  same_but_buffers s (state_of r) /\
  (forall s', r <> Throw s').
Proof.
  revert s. induction fuel as [|fuel IH]; intros s.
  { simpl. split_and!; [by exists 0%nat|done|done|done]. }
  cbn [writeOutgoingData].
  destruct (writeData (world s) _) as [w len].
  set (s1 := mkState (socket s) w (calls s)).
  destruct ((len <? 0) && (errno w =? EINTR)); [apply (IH s1)|].
  destruct (0 <? len); [|by split_and!; [exists 0%nat|..]].
  case_bool_decide as Hempty.
  - simpl. split_and!; [by eexists|done..].
  - set (s2 := set_buffers _ s1).
    destruct (IH s2) as ((n & Hn) & Hi & (Hc & Hl) & Ht).
    split_and!; [|done|done|done].
    exists (Z.to_nat len + n)%nat. rewrite Hn. simpl. by rewrite drop_drop.
Qed.

(** X12: [readIncomingData] only appends to the input buffer: the output
    buffer, the closed flag and the handler calls are as before, and it
    never throws. *)
Theorem readIncomingData_only_appends (fuel : nat) (s : State World) :
  let r := readIncomingData fuel s in
  (exists data, _inBuffer (buffers (socket (state_of r))) =
                  _inBuffer (buffers (socket s)) ++ data) /\
  _outBuffer (buffers (socket (state_of r))) = _outBuffer (buffers (socket s)) /\
  _closed (socket (state_of r)) = _closed (socket s) /\
  calls (state_of r) = calls s /\
  (forall s', r <> Throw s').
Proof.
  destruct (readIncomingData_frame fuel s) as (Hin & Hout & (Hc & Hl) & Ht). done.
Qed.

(** X13: [writeOutgoingData] only removes bytes from the front of the
    output buffer: the input buffer, the closed flag and the handler calls
    are as before, and it never throws. *)
Theorem writeOutgoingData_only_trims (fuel : nat) (s : State World) :
  let r := writeOutgoingData fuel s in
  (exists n, _outBuffer (buffers (socket (state_of r))) =
               drop n (_outBuffer (buffers (socket s)))) /\
  _inBuffer (buffers (socket (state_of r))) = _inBuffer (buffers (socket s)) /\
  _closed (socket (state_of r)) = _closed (socket s) /\
  calls (state_of r) = calls s /\
  (forall s', r <> Throw s').
Proof.
  destruct (writeOutgoingData_frame fuel s) as (Hin & Hout & (Hc & Hl) & Ht). done.
Qed.

(** X14: [send] without data does nothing; without flush it appends the
    data to the output buffer and does nothing else; in every case the
    output buffer afterwards is a suffix of the old buffer followed by the
    data, and the input buffer, the closed flag and the handler calls are
    as before. *)
Theorem send_queues (fuel : nat) (data : list ascii) (flush : bool) (s : State World) :
  let r := send fuel data flush s in
  (data = [] -> r = Ret tt s) /\
  (flush = false ->
   r = Ret tt (set_buffers (mkBuffers (_inBuffer (buffers (socket s)))
                                      (_outBuffer (buffers (socket s)) ++ data)) s)) /\
  (exists n, _outBuffer (buffers (socket (state_of r))) =
               drop n (_outBuffer (buffers (socket s)) ++ data)) /\
  _inBuffer (buffers (socket (state_of r))) = _inBuffer (buffers (socket s)) /\
  _closed (socket (state_of r)) = _closed (socket s) /\
  calls (state_of r) = calls s.
Proof.
  unfold send. case_bool_decide as Hd.
  - subst data. simpl. rewrite app_nil_r.
    split_and!; [done| |by exists 0%nat|done..].
    intros _. by destruct s as [[[] ?] ? ?].
  - unfold bind, append_out. destruct flush; simpl.
    + set (s1 := set_buffers _ s).
      destruct (writeOutgoingData_frame fuel s1) as (Hout & Hin & (Hc & Hl) & _).
      split_and!; done.
    + split_and!; [done|done|by exists 0%nat|done..].
Qed.

(** X15: after a [send] of some data without flush, [getPollEvents] asks
    for [POLLOUT]. *)
Theorem send_asks_for_POLLOUT (fuel : nat) (data : list ascii) (s s' : State World) :
  data <> [] ->
  send fuel data false s = Ret tt s' ->
  Z.land (getPollEvents s') POLLOUT = POLLOUT.
Proof.
  intros Hd Hs. unfold send in Hs. rewrite bool_decide_eq_false_2 in Hs by done.
  unfold bind, append_out in Hs. simpl in Hs. injection Hs as <-.
  unfold getPollEvents, out_empty. simpl.
  rewrite bool_decide_eq_false_2; [done|].
  intros [_ ?]%app_eq_nil. done.
Qed.

Lemma incoming_loop_frame (fuel oldSize : nat) (s : State World) :
  let r := incoming_loop fuel oldSize s in
  (exists n, calls (state_of r) = calls s ++ replicate n HandleIncomingMessage) /\
  _closed (socket (state_of r)) = _closed (socket s).
Proof.
  revert oldSize s. induction fuel as [|fuel IH]; intros oldSize s; cbn [incoming_loop];
    destruct (incoming_test oldSize s);
    try (split; [by exists 0%nat; rewrite app_nil_r|done]).
  unfold bind, call. simpl.
  destruct (handleIncomingMessage (world s) (buffers (socket s))) as [[c w] b].
  destruct c.
  - match goal with |- context [incoming_loop fuel ?o ?s1] =>
      destruct (IH o s1) as [[n Hn] Hc] end.
    simpl in *. split; [|done]. exists (S n). rewrite Hn. by rewrite <- app_assoc.
  - simpl. split; [|done]. by exists 1%nat.
Qed.

Lemma call_frame (cb : Callback) (s : State World) :
  calls (state_of (call cb s)) = calls s ++ [cb] /\
  _closed (socket (state_of (call cb s))) = _closed (socket s) /\
  (forall s', call cb s <> Diverge s').
Proof.
  unfold call. destruct (handler cb (world s) (buffers (socket s))) as [[[] w] b]; done.
Qed.

Lemma handlePoll_frame (fuel : nat) (events : Z) (s : State World)
    (r : Result HandleResult) :
  handlePoll fuel events s = r ->
  exists n pw od,
    polled_calls events (calls s) (_closed (socket s)) n pw od (state_of r) /\
    match r with
    | Ret res s' =>
        (res = SOCKET_CLOSED <-> _closed (socket s') = true) /\
        (has events hangup = true \/ (exists s1, readIncomingData fuel s = Ret false s1) ->
         od = [OnDisconnect])
    | Throw _ => True
    | Diverge _ => od = []
    end.
Proof.
  intros Hr. unfold handlePoll in Hr. unfold bind at 1 in Hr.
  destruct (readIncomingData_frame fuel s) as (_ & _ & [Hc1 Hl1] & Ht1).
  destruct (readIncomingData fuel s) as [r1 s1|s1|s1] eqn:Hread; simpl in Hc1, Hl1;
    [|by destruct (Ht1 s1)|].
  2: { subst r. exists 0%nat, [], []. split; [|done]. split_and!; [|by left|by left].
       simpl. by rewrite Hl1, app_nil_r. }
  unfold bind at 1 in Hr.
  destruct (incoming_loop_frame fuel 0 s1) as [[n Hl2] Hc2].
  destruct (incoming_loop fuel 0 s1) as [[] s2|s2|s2]; simpl in Hl2, Hc2.
  2, 3: subst r; exists n, [], []; (split; [|done]); split_and!;
        [|by left|left; split; [done|simpl; congruence]];
        simpl; by rewrite Hl2, Hl1, !app_nil_r.
  unfold bind at 1, get at 1 in Hr. unfold bind at 1 in Hr.
  set (cond_pw := has events POLLOUT && out_empty s2) in Hr.
  assert (exists pw s3 (r3 : Result unit),
            when cond_pw (call PerformWrites) s2 = r3 /\ state_of r3 = s3 /\
            (forall s', r3 <> Diverge s') /\
            calls s3 = calls s2 ++ pw /\ _closed (socket s3) = _closed (socket s2) /\
            (pw = [] \/ pw = [PerformWrites] /\ has events POLLOUT = true))
    as (pw & s3 & r3 & Hr3 & Hs3 & Hd3 & Hl3 & Hc3 & Hpw).
  { destruct cond_pw eqn:Hcond; simpl.
    - destruct (call_frame PerformWrites s2) as (Hl & Hc & Hd).
      exists [PerformWrites], (state_of (call PerformWrites s2)), (call PerformWrites s2).
      split_and!; try done. right. split; [done|].
      by apply andb_true_iff in Hcond as [? _].
    - exists [], s2, (Ret tt s2). split_and!; try done; [by rewrite app_nil_r|by left]. }
  rewrite Hr3 in Hr.
  assert (_closed (socket s3) = _closed (socket s)) as Hf3 by congruence.
  assert (forall s4 : State World, calls s4 = calls s3 -> _closed (socket s4) = _closed (socket s3) ->
            polled_calls events (calls s) (_closed (socket s)) n pw [] s4) as Hshape.
  { intros s4 Hl Hc. split_and!; [|done|left; split; congruence].
    by rewrite Hl, Hl3, Hl2, Hl1, app_nil_r, <- !app_assoc. }
  destruct r3 as [[] s3'|s3'|s3']; simpl in Hs3; subst s3'.
  2: { subst r. exists n, pw, []. split; [|done]. by apply Hshape. }
  2: { by destruct (Hd3 s3). }
  unfold get at 1 in Hr. unfold bind at 1 in Hr.
  set (block := if has events POLLOUT || negb (out_empty s3) then _ else _) in Hr.
  assert (exists s4 (r4 : Result bool),
            block s3 = r4 /\ state_of r4 = s4 /\ (forall s', r4 <> Throw s') /\
            calls s4 = calls s3 /\ _closed (socket s4) = _closed (socket s3) /\
            match r4 with
            | Ret closed _ => negb r1 || has events hangup = true -> closed = true
            | _ => True
            end) as (s4 & r4 & Hr4 & Hs4 & Ht4 & Hl4 & Hc4 & Hclosed).
  { subst block. destruct (has events POLLOUT || negb (out_empty s3)).
    - unfold bind at 1.
      assert (exists s4 (r : Result unit),
                when (try_lock (world s3) && negb (out_empty s3)) (writeOutgoingData fuel) s3 = r /\
                state_of r = s4 /\ (forall s', r <> Throw s') /\
                calls s4 = calls s3 /\ _closed (socket s4) = _closed (socket s3))
        as (s4 & r4 & Hr4 & Hs & Ht & Hl & Hc).
      { destruct (try_lock (world s3) && negb (out_empty s3)); simpl.
        - destruct (writeOutgoingData_frame fuel s3) as (_ & _ & [Hc Hl] & Ht).
          by eexists _, _.
        - by exists s3, (Ret tt s3). }
      rewrite Hr4. destruct r4 as [[] s4'|s4'|s4']; simpl in Hs; subst s4'.
      + eexists s4, _. split; [done|]. simpl. split_and!; try done.
        unfold hangup. intros ->. done.
      + by destruct (Ht s4).
      + by exists s4, (Diverge s4).
    - exists s3, (Ret (negb r1 || has events hangup) s3). by split_and!. }
  unfold bind at 1 in Hr. rewrite Hr4 in Hr. clear Hr4 block.
  specialize (Hshape s4 Hl4 Hc4).
  assert (_closed (socket s4) = _closed (socket s)) as Hf4 by congruence.
  destruct r4 as [closed s4'|s4'|s4']; simpl in Hs4; subst s4'.
  2: { by destruct (Ht4 s4). }
  2: { subst r. exists n, pw, []. by split. }
  unfold bind at 1 in Hr.
  destruct closed; simpl in Hr.
  - unfold bind at 1, set_closed in Hr. unfold call in Hr. simpl in Hr.
    destruct (onDisconnect (world s4) (buffers (socket s4))) as [[c w] b].
    exists n, pw, [OnDisconnect].
    assert (polled_calls events (calls s) (_closed (socket s)) n pw [OnDisconnect]
              (mkState (mkStreamSocket b true) w (calls s4 ++ [OnDisconnect]))) as Hfin.
    { destruct Hshape as (Hl & Hp & _).
      split_and!; [|done|by right]. simpl. rewrite Hl, app_nil_r.
      by rewrite <- !app_assoc. }
    destruct c; simpl in Hr; subst r; simpl; [|done]. split; [done|]. by split.
  - unfold ret, get, bind in Hr. simpl in Hr. subst r.
    exists n, pw, []. split; [done|]. simpl. split.
    + rewrite Hf4. destruct (_closed (socket s)); split; done.
    + intros [Hh|[s1' Heof]].
      * rewrite Hh, orb_true_r in Hclosed. by specialize (Hclosed eq_refl).
      * injection Heof as -> _. by specialize (Hclosed eq_refl).
Qed.

(** X16: the handler calls of one [handlePoll] are, in this order, some
    [handleIncomingMessage], at most one [performWrites], made only when
    the events have [POLLOUT], and at most one [onDisconnect]; it makes no
    other call. *)
Theorem handlePoll_calls_in_order (fuel : nat) (events : Z) (s : State World) :
  exists (n : nat) (pw od : list Callback),
    calls (state_of (handlePoll fuel events s)) =
      calls s ++ replicate n HandleIncomingMessage ++ pw ++ od /\
    (pw = [] \/ pw = [PerformWrites] /\ has events POLLOUT = true) /\
    (od = [] \/ od = [OnDisconnect]).
Proof.
  destruct (handlePoll_frame fuel events s _ eq_refl) as (n & pw & od & (Hl & Hp & Ho) & _).
  exists n, pw, od. split_and!; [done|done|]. destruct Ho as [[? _]|[? _]]; auto.
Qed.

(** X17: when [handlePoll] returns, its result is [SOCKET_CLOSED] exactly
    when the closed flag is set afterwards; on a socket that is closed
    already it returns [SOCKET_CLOSED]; and when it returns [CONTINUE] it
    has not called [onDisconnect]. *)
Theorem handlePoll_result_is_closed_flag (fuel : nat) (events : Z)
    (s s' : State World) (res : HandleResult) :
  handlePoll fuel events s = Ret res s' ->
  (res = SOCKET_CLOSED <-> _closed (socket s') = true) /\
  (_closed (socket s) = true -> res = SOCKET_CLOSED) /\
  (res = CONTINUE -> OnDisconnect ∉ drop (length (calls s)) (calls s')).
Proof.
  intros Hr.
  destruct (handlePoll_frame fuel events s _ Hr) as (n & pw & od & (Hl & Hp & Ho) & Hres & _).
  simpl in *. split_and!; [done| |].
  - intros Hc. apply Hres. destruct Ho as [[_ ?]|[_ ?]]; congruence.
  - intros ->. rewrite Hl, drop_app_length.
    destruct Ho as [[-> _]|[_ Hc]].
    + rewrite app_nil_r, elem_of_app. intros [Hin|Hin].
      * by apply elem_of_replicate in Hin as [? _].
      * destruct Hp as [->|[-> _]]; [by apply elem_of_nil in Hin|].
        by apply list_elem_of_singleton in Hin.
    + by apply Hres in Hc.
Qed.

Lemma readIncomingData_meets_eof (fuel : nat) (s : State World) :
  meets_eof s ->
  (exists s1, readIncomingData fuel s = Ret false s1) \/
  (exists s1, readIncomingData fuel s = Diverge s1).
Proof.
  intros Heof. revert fuel.
  induction Heof as [s w buf Hrd|s w len buf Hrd Hlen Herr _ IH|s w buf Hrd _ IH];
    intros [|fuel]; try (right; by eexists); cbn [readIncomingData]; rewrite Hrd.
  - left. by eexists.
  - rewrite (proj2 (Z.ltb_lt len 0) Hlen), Herr, Z.eqb_refl. apply IH.
  - change (read_chunk <? 0) with false. change (0 <? read_chunk) with true.
    rewrite Z.eqb_refl. apply IH.
Qed.

Lemma readIncomingData_false_meets_eof (fuel : nat) (s s1 : State World) :
  readIncomingData fuel s = Ret false s1 -> meets_eof s.
Proof.
  revert s. induction fuel as [|fuel IH]; intros s; [done|].
  cbn [readIncomingData].
  destruct (readData (world s) read_chunk) as [[w len] buf] eqn:Hrd.
  destruct ((len <? 0) && (errno w =? EINTR)) eqn:Hretry.
  { apply andb_true_iff in Hretry as [Hlen Herr].
    apply Z.ltb_lt in Hlen. apply Z.eqb_eq in Herr.
    intros Hrec. eapply eof_after_EINTR; [done..|]. by eapply IH. }
  destruct (Z.eqb_spec len read_chunk) as [->|Hne].
  { change (0 <? read_chunk) with true. cbv iota.
    intros Hrec. eapply eof_after_chunk; [done|]. by eapply IH. }
  intros [= Hzero _]. apply negb_false_iff, Z.eqb_eq in Hzero. subst len.
  by eapply eof_read.
Qed.

(** X18: a [handlePoll] that returns, with one of [POLLHUP], [POLLERR],
    [POLLNVAL] among the events or with a read of [readIncomingData] that
    returns 0, the end of file, be it the first read or one after
    interrupted reads and full chunks, returns [SOCKET_CLOSED], has set the
    closed flag, and has called [onDisconnect] as its last call. *)
Theorem handlePoll_closes_on_hangup_or_eof (fuel : nat) (events : Z)
    (s s' : State World) (res : HandleResult) :
  handlePoll fuel events s = Ret res s' ->
  Z.land events (Z.lor POLLHUP (Z.lor POLLERR POLLNVAL)) <> 0 \/ meets_eof s ->
  res = SOCKET_CLOSED /\ _closed (socket s') = true /\
  last (calls s') = Some OnDisconnect.
Proof.
  intros Hr Hcause.
  destruct (handlePoll_frame fuel events s _ Hr)
    as (n & pw & od & (Hl & Hp & Ho) & Hres & Hod).
  simpl in *.
  assert (od = [OnDisconnect]) as ->.
  { apply Hod. destruct Hcause as [Hh|Heof].
    - left. unfold has, hangup. by apply negb_true_iff, Z.eqb_neq.
    - right. destruct (readIncomingData_meets_eof fuel s Heof) as [Hret|[s1 Hdiv]]; [done|].
      exfalso. unfold handlePoll in Hr. unfold bind at 1 in Hr. by rewrite Hdiv in Hr. }
  destruct Ho as [[? _]|[_ Hc]]; [done|].
  split_and!; [by apply Hres|done|].
  rewrite Hl, !app_assoc. apply last_snoc.
Qed.

Lemma no_connect_since_trans (c0 : list Callback) (s1 s2 : State World) :
  no_connect_since c0 s1 -> no_connect_since (calls s1) s2 -> no_connect_since c0 s2.
Proof.
  intros (t1 & H1 & Hn1) (t2 & H2 & Hn2). exists (t1 ++ t2).
  split; [by rewrite H2, H1, app_assoc|]. rewrite elem_of_app. tauto.
Qed.

Lemma no_connect_since_refl (s : State World) : no_connect_since (calls s) s.
Proof. exists []. split; [by rewrite app_nil_r|apply not_elem_of_nil]. Qed.

Lemma handlePoll_no_connect (fuel : nat) (events : Z) (s : State World) :
  no_connect_since (calls s) (state_of (handlePoll fuel events s)).
Proof.
  destruct (handlePoll_frame fuel events s _ eq_refl) as (n & pw & od & (Hl & Hp & Ho) & _).
  eexists. split; [exact Hl|]. rewrite !elem_of_app. intros [Hin|[Hin|Hin]].
  - by apply elem_of_replicate in Hin as [? _].
  - destruct Hp as [->|[-> _]]; [by apply elem_of_nil in Hin|].
    by apply list_elem_of_singleton in Hin.
  - destruct Ho as [[-> _]|[-> _]]; [by apply elem_of_nil in Hin|].
    by apply list_elem_of_singleton in Hin.
Qed.

Lemma polled_no_connect (fuel : nat) (rounds : list Z) (s : State World) :
  no_connect_since (calls s) (state_of (polled fuel rounds s)).
Proof.
  revert s. induction rounds as [|revents rounds IH]; intros s; simpl.
  { apply no_connect_since_refl. }
  unfold bind, dispatch. destruct (revents =? 0); simpl; [apply IH|].
  unfold catch. pose proof (handlePoll_no_connect fuel revents s) as Hh.
  destruct (handlePoll fuel revents s) as [[] s1|s1|s1]; simpl in *; try done.
  eapply no_connect_since_trans; [exact Hh|apply IH].
Qed.

(** X19: over the life of a socket made by [create], polled and then
    destroyed, [onConnect] is the first handler call and is made once,
    [onDisconnect] is the last one and is made once, also when [onConnect]
    or a later call throws; while a loop is still running [onDisconnect]
    has not been called. *)
Theorem created_life_connects_and_disconnects_once (fuel : nat) (rounds : list Z)
    (w : World) :
  match created_life fuel rounds w with
  | Ret _ s | Throw s =>
      exists t, calls s = OnConnect :: (t ++ [OnDisconnect]) /\
                (OnConnect ∉ t) /\ (OnDisconnect ∉ t)
  | Diverge s =>
      exists t, calls s = OnConnect :: t /\ (OnConnect ∉ t) /\ (OnDisconnect ∉ t)
  end.
Proof.
  unfold created_life.
  set (body := catch _ _).
  assert (match body (ctor w) with
          | Ret _ s =>
              (connected s \/ closed_once s) /\ no_connect_since [OnConnect] s
          | Throw _ => False
          | Diverge s => connected s /\ no_connect_since [OnConnect] s
          end) as Hbody.
  { subst body. unfold catch, bind at 1, create.
    pose proof (quiet_call OnConnect ltac:(done) (ctor w) (connected_ctor w)) as Hq.
    destruct (call_frame OnConnect (ctor w)) as (Hl & _ & Hd).
    destruct (call OnConnect (ctor w)) as [[] s1|s1|s1]; simpl in *.
    - pose proof (polled_connected fuel rounds s1 Hq) as Hp.
      pose proof (polled_no_connect fuel rounds s1) as Hn. rewrite Hl in Hn.
      destruct (polled fuel rounds s1) as [[] s2|s2|s2]; simpl in *; done.
    - split; [by left|]. exists []. split; [done|apply not_elem_of_nil].
    - by destruct (Hd s1). }
  assert (forall (s : State World) t, calls s = OnConnect :: t -> OnConnect ∉ t -> disconnected_once s ->
            exists t', calls s = OnConnect :: (t' ++ [OnDisconnect]) /\
                       (OnConnect ∉ t') /\ (OnDisconnect ∉ t')) as Hjoin.
  { intros s t Hl Hn (t2 & Hl2 & Hn2). rewrite Hl2 in Hl.
    destruct t2 as [|cb t3]; simplify_eq/=.
    exists t3. split_and!; [done| |].
    - intros Hin. apply Hn, elem_of_app. by left.
    - intros Hin. apply Hn2. by right. }
  unfold bind at 1.
  destruct (body (ctor w)) as [[] s1|s1|s1]; [|done|].
  - destruct Hbody as (Hs1 & t & Hl & Hn). simpl in Hl.
    pose proof (dtor_disconnects s1 Hs1) as Hd.
    assert (no_connect_since (calls s1) (state_of (dtor s1))) as (t' & Hl' & Hn').
    { unfold dtor, bind, get, when. destruct (_closed (socket s1)); simpl.
      - apply no_connect_since_refl.
      - destruct (call_frame OnDisconnect s1) as (Hc & _). eexists. split; [exact Hc|].
        by intros ?%list_elem_of_singleton. }
    assert (calls (state_of (dtor s1)) = OnConnect :: (t ++ t') /\ OnConnect ∉ t ++ t')
      as [Hall Hnall].
    { rewrite Hl', Hl. split; [done|]. rewrite elem_of_app. tauto. }
    destruct (dtor s1) as [[] s2|s2|s2]; simpl in *; [by eapply Hjoin..|done].
  - destruct Hbody as ([_ Hnd] & t & Hl & Hn). exists t.
    split_and!; [done|done|]. intros Hin. apply Hnd. rewrite Hl. by right.
Qed.

End SocketLaws.

(** ** The poll and its sockets *)

Section PollFacts.
Import Net.
Context {Sock : Type} `{EqDecision Sock} `{Pollable Sock} {Fn : Type}.

Local Abbreviation Poll := (SocketPoll Sock Fn).
Local Abbreviation stays := (fun sr : Sock * Z => stays_polled sr = true).

Lemma erase_found_filter (x : Sock) (l : list Sock) :
  NoDup l -> erase_found x l = filter (fun y => y <> x) l.
Proof.
  unfold erase_found. intros Hnd.
  destruct (list_find (fun y => y = x) l) as [[k y]|] eqn:Hf.
  - apply list_find_Some in Hf as (Hk & -> & _).
    rewrite delete_take_drop. rewrite <- (take_drop_middle l k x Hk) in Hnd |- * at 3.
    apply NoDup_app in Hnd as (_ & Hx1 & [Hx2 _]%NoDup_cons).
    rewrite filter_app, (filter_cons_False (fun y : Sock => y <> x) x)
      by (intros Hne; by apply Hne).
    assert (forall l' : list Sock, x ∉ l' -> filter (fun y => y <> x) l' = l') as Hid.
    { intros l' Hn. induction l' as [|z l' IH]; [done|].
      rewrite filter_cons_True by (intros ->; apply Hn; by left).
      rewrite IH; [done|]. intros Hin. apply Hn. by right. }
    assert (x ∉ take k l) as Hx0 by (intros Hin; by apply (Hx1 x Hin); left).
    by rewrite !Hid.
  - apply list_find_None in Hf. clear Hnd.
    induction Hf as [|z l' Hz _ IH]; [done|].
    rewrite filter_cons_True by done. by rewrite <- IH.
Qed.

Lemma erase_found_sublist (x : Sock) (l : list Sock) : erase_found x l `sublist_of` l.
Proof.
  unfold erase_found. destruct (list_find _ l) as [[k y]|]; [apply sublist_delete|done].
Qed.

Lemma release_loop_sublist (i : nat) (rel ps : list Sock) :
  release_loop i rel ps `sublist_of` ps.
Proof.
  revert ps. induction i as [|i IH]; intros ps; simpl; [done|].
  destruct (rel !! i); [|apply IH]. etrans; [apply IH|apply erase_found_sublist].
Qed.

Lemma release_loop_filter (i : nat) (rel ps : list Sock) :
  NoDup ps -> (i <= length rel)%nat ->
  release_loop i rel ps = filter (fun y => y ∉ take i rel) ps.
Proof.
  revert ps. induction i as [|i IH]; intros ps Hnd Hi; simpl.
  - symmetry. clear Hnd. induction ps as [|y ps IHps]; [done|].
    rewrite filter_cons_True by apply not_elem_of_nil. by rewrite IHps.
  - destruct (lookup_lt_is_Some_2 rel i) as [x Hx]; [lia|]. rewrite Hx.
    rewrite IH, erase_found_filter; [|done| |lia].
    2: { rewrite erase_found_filter by done. by apply NoDup_filter. }
    rewrite list_filter_filter. apply list_filter_iff. intros y.
    rewrite (take_S_r _ _ _ Hx), elem_of_app, list_elem_of_singleton. tauto.
Qed.

(** X21: [setupPollFds] empties the list of released sockets and removes
    sockets from the polled ones without reordering the others; when no
    socket is polled twice, the polled sockets afterwards are exactly the
    ones that were not released; new sockets and callbacks are not
    touched. *)
Theorem setupPollFds_releases (p : Poll) :
  _relSockets (setupPollFds p) = [] /\
  _pollSockets (setupPollFds p) `sublist_of` _pollSockets p /\
  (NoDup (_pollSockets p) ->
   _pollSockets (setupPollFds p) =
     filter (fun sock => sock ∉ _relSockets p) (_pollSockets p)) /\
  _newSockets (setupPollFds p) = _newSockets p /\
  _newCallbacks (setupPollFds p) = _newCallbacks p.
Proof.
  split_and!; [done|apply release_loop_sublist| |done|done].
  intros Hnd. simpl. rewrite release_loop_filter by done. by rewrite take_ge.
Qed.

Lemma take_delete_same (l : list Sock) (i : nat) : take i (delete i l) = take i l.
Proof.
  rewrite delete_take_drop. destruct (decide (i <= length l)%nat).
  - by rewrite take_app_length' by (rewrite length_take; lia).
  - rewrite (drop_ge l (S i)) by lia. rewrite app_nil_r. by rewrite take_take, Nat.min_id.
Qed.

Lemma dispatch_at_spec (ps0 : list Sock) (pollFds : list Z) (i : nat) (p : Poll) :
  take (S i) (_pollSockets p) = take (S i) ps0 ->
  let p' := dispatch_at i pollFds p in
  take i (_pollSockets p') = take i ps0 /\
  _pollSockets p' `sublist_of` _pollSockets p /\
  _relSockets p' `sublist_of` _relSockets p /\
  (exists new, poll_log p' = poll_log p ++ new /\
               Forall (dispatched_by_index ps0 pollFds) new) /\
  _newSockets p' = _newSockets p /\ _newCallbacks p' = _newCallbacks p /\
  wakeup_pipe p' = wakeup_pipe p /\ _stop p' = _stop p.
Proof.
  intros Htake.
  assert (take i (_pollSockets p) = take i ps0) as Htake'.
  { pose proof (f_equal (take i) Htake) as Ht. rewrite !take_take in Ht.
    by replace (i `min` S i)%nat with i in Ht by lia. }
  unfold dispatch_at.
  assert (exists new' : list (PollEvent Sock Fn),
            poll_log p = poll_log p ++ new' /\
            Forall (dispatched_by_index ps0 pollFds) new') as Hnil.
  { exists []. by rewrite app_nil_r. }
  destruct (_pollSockets p !! i) as [sock|] eqn:Hi; [|by split_and!; eauto].
  assert (ps0 !! i = Some sock) as Hi0.
  { rewrite <- (lookup_take_lt ps0 (S i) i), <- Htake, lookup_take_lt by lia. done. }
  destruct (list_find (fun y => y = sock) (_relSockets p)) as [[k y]|]; simpl.
  { split_and!; eauto using sublist_delete. by rewrite take_delete_same. }
  destruct (pollFds !! i) as [revents|] eqn:Hfd; simpl; [|by split_and!; eauto].
  destruct (Z.eqb_spec revents 0) as [->|Hne]; [by split_and!; eauto|].
  assert (exists new', poll_log p ++ [Dispatched sock revents] = poll_log p ++ new' /\
            Forall (dispatched_by_index ps0 pollFds) new') as Hlog.
  { eexists. split; [done|]. repeat constructor. by exists i, sock, revents. }
  destruct (default SOCKET_CLOSED (socket_handlePoll sock revents)); simpl.
  - by split_and!.
  - split_and!; eauto using sublist_delete. by rewrite take_delete_same.
Qed.

Lemma dispatch_loop_spec (ps0 : list Sock) (pollFds : list Z) (i : nat) (p : Poll) :
  take i (_pollSockets p) = take i ps0 ->
  let p' := dispatch_loop i pollFds p in
  _pollSockets p' `sublist_of` _pollSockets p /\
  _relSockets p' `sublist_of` _relSockets p /\
  (exists new, poll_log p' = poll_log p ++ new /\
               Forall (dispatched_by_index ps0 pollFds) new) /\
  _newSockets p' = _newSockets p /\ _newCallbacks p' = _newCallbacks p /\
  wakeup_pipe p' = wakeup_pipe p /\ _stop p' = _stop p.
Proof.
  revert p. induction i as [|i IH]; intros p Htake; simpl.
  { split_and!; try done. exists []. by rewrite app_nil_r. }
  destruct (dispatch_at_spec ps0 pollFds i p Htake)
    as (Ht & Hs & Hr & (new1 & Hl1 & Hf1) & Hn & Hc & Hp & Hst).
  destruct (IH _ Ht) as (Hs' & Hr' & (new2 & Hl2 & Hf2) & Hn' & Hc' & Hp' & Hst').
  split_and!; try congruence; [by etrans|by etrans|].
  exists (new1 ++ new2). split; [by rewrite Hl2, Hl1, app_assoc|].
  by apply Forall_app.
Qed.

(** X22: the dispatch loop of [poll] only removes sockets from the polled
    and the released ones; every [handlePoll] it makes is on the socket
    that was at some index when the loop started, with the events the
    system call reported for that index, which are not 0, although the
    loop erases sockets while it runs; new sockets and callbacks are not
    touched. *)
Theorem dispatch_is_by_index (pollFds : list Z) (p : Poll) :
  let p' := dispatch_loop (length (_pollSockets p)) pollFds p in
  _pollSockets p' `sublist_of` _pollSockets p /\
  _relSockets p' `sublist_of` _relSockets p /\
  (exists new, poll_log p' = poll_log p ++ new /\
               Forall (dispatched_by_index (_pollSockets p) pollFds) new) /\
  _newSockets p' = _newSockets p /\ _newCallbacks p' = _newCallbacks p.
Proof.
  destruct (dispatch_loop_spec (_pollSockets p) pollFds (length (_pollSockets p)) p eq_refl)
    as (? & ? & ? & ? & ? & _). done.
Qed.

Lemma dispatch_loop_no_release (ps0 : list Sock) (pollFds : list Z) (i : nat)
    (K ns : list Sock) (cbs : list Fn) (st : bool) (pipe : N)
    (log : list (PollEvent Sock Fn)) :
  (i <= length ps0)%nat -> length pollFds = length ps0 ->
  dispatch_loop i pollFds (mkSocketPoll (take i ps0 ++ K) ns [] cbs st pipe log) =
    mkSocketPoll ((filter stays (take i (zip ps0 pollFds))).*1 ++ K) ns [] cbs st pipe
      (log ++ reverse ((fun sr => Dispatched sr.1 sr.2) <$>
                         filter (fun sr => sr.2 <> 0) (take i (zip ps0 pollFds)))).
Proof.
  intros Hi Hlen. revert K log Hi. induction i as [|i IH]; intros K log Hi.
  { simpl. by rewrite app_nil_r. }
  destruct (lookup_lt_is_Some_2 ps0 i) as [sock Hs]; [lia|].
  destruct (lookup_lt_is_Some_2 pollFds i) as [revents Hr]; [lia|].
  assert (zip ps0 pollFds !! i = Some (sock, revents)) as Hz.
  { rewrite lookup_zip_with, Hs. simpl. by rewrite Hr. }
  rewrite (take_S_r (zip ps0 pollFds) i _ Hz), !filter_app, !fmap_app, reverse_app.
  cbn [dispatch_loop]. unfold dispatch_at. simpl.
  assert ((take (S i) ps0 ++ K) !! i = Some sock) as ->.
  { rewrite lookup_app_l by (rewrite length_take; lia). by rewrite lookup_take_lt by lia. }
  simpl. rewrite Hr. simpl.
  rewrite (take_S_r ps0 i sock Hs), <- app_assoc.
  assert (delete i (take i ps0 ++ sock :: K) = take i ps0 ++ K) as Hdel.
  { assert (length (take i ps0) = i) as Hlt by (rewrite length_take; lia).
    rewrite <- Hlt at 1. apply (delete_middle (take i ps0) K sock). }
  destruct (Z.eqb_spec revents 0) as [->|Hne].
  - rewrite IH by lia.
    rewrite (filter_cons_True stays) by done.
    rewrite (filter_cons_False (fun sr : Sock * Z => sr.2 <> 0)) by (by intros ?).
    rewrite !filter_nil. simpl. by rewrite <- app_assoc.
  - rewrite (filter_cons_True (fun sr : Sock * Z => sr.2 <> 0)) by done.
    rewrite filter_nil. simpl.
    destruct (socket_handlePoll sock revents) as [[]|] eqn:Hh; simpl.
    + rewrite IH by lia.
      rewrite (filter_cons_True stays)
        by (unfold stays_polled; simpl; rewrite Hh; apply orb_true_r).
      rewrite filter_nil. simpl. by rewrite <- !app_assoc.
    + rewrite Hdel, IH by lia.
      rewrite (filter_cons_False stays)
        by (unfold stays_polled; simpl; rewrite Hh, (proj2 (Z.eqb_neq _ _) Hne); done).
      rewrite filter_nil. simpl. by rewrite app_nil_r, <- !app_assoc.
    + rewrite Hdel, IH by lia.
      rewrite (filter_cons_False stays)
        by (unfold stays_polled; simpl; rewrite Hh, (proj2 (Z.eqb_neq _ _) Hne); done).
      rewrite filter_nil. simpl. by rewrite app_nil_r, <- !app_assoc.
Qed.

(** X23: when no socket is being released, the dispatch loop of [poll]
    keeps, in their order, exactly the sockets that had no events or whose
    [handlePoll] returned [CONTINUE] (one that threw is removed), and it
    calls [handlePoll] once on each socket with events, from the last
    socket to the first. *)
Theorem dispatch_without_release (pollFds : list Z) (p : Poll) :
  _relSockets p = [] ->
  length pollFds = length (_pollSockets p) ->
  let p' := dispatch_loop (length (_pollSockets p)) pollFds p in
  _pollSockets p' = (filter stays (zip (_pollSockets p) pollFds)).*1 /\
  poll_log p' =
    poll_log p ++ reverse ((fun sr => Dispatched sr.1 sr.2) <$>
                             filter (fun sr => sr.2 <> 0) (zip (_pollSockets p) pollFds)).
Proof.
  intros Hrel Hlen. destruct p as [ps ns rel cbs st pipe log]. simpl in *. subst rel.
  pose proof (dispatch_loop_no_release ps pollFds (length ps) [] ns cbs st pipe log
                ltac:(lia) Hlen) as Hd.
  rewrite take_ge, app_nil_r in Hd by lia. rewrite Hd. simpl.
  rewrite take_ge by (rewrite length_zip_with; lia). by rewrite app_nil_r.
Qed.

Lemma poll_before_wake (pollFds : list Z) (p : Poll) :
  let p1 := setupPollFds p in
  let p2 := dispatch_loop (length (_pollSockets p1)) pollFds p1 in
  _pollSockets p2 `sublist_of` _pollSockets p1 /\
  _relSockets p2 = [] /\
  (exists new, poll_log p2 = poll_log p ++ new /\
               Forall (dispatched_by_index (_pollSockets p1) pollFds) new) /\
  _newSockets p2 = _newSockets p /\ _newCallbacks p2 = _newCallbacks p /\
  wakeup_pipe p2 = wakeup_pipe p /\ _stop p2 = _stop p.
Proof.
  intros p1 p2.
  destruct (dispatch_loop_spec (_pollSockets p1) pollFds (length (_pollSockets p1)) p1 eq_refl)
    as (Hs & Hr & Hl & Hn & Hc & Hp & Hst).
  fold p2 in Hs, Hr, Hl, Hn, Hc, Hp, Hst.
  split_and!; try done. by apply sublist_nil_r in Hr.
Qed.

Lemma poll_woken (pollFds : list Z) (p : Poll) :
  (0 < wakeup_pipe p)%N ->
  exists kept new,
    kept `sublist_of` _pollSockets (setupPollFds p) /\
    Forall (dispatched_by_index (_pollSockets (setupPollFds p)) pollFds) new /\
    poll pollFds p =
      mkSocketPoll (kept ++ _newSockets p) [] [] [] (_stop p)
                   (wakeup_pipe p - N.min 4 (wakeup_pipe p))
                   (poll_log p ++ new ++ (Invoked <$> _newCallbacks p) ++ [WakeupHook]).
Proof.
  intros Hpipe. unfold poll. cbv zeta.
  destruct (poll_before_wake pollFds p) as (Hs & Hr & (new & Hl & Hf) & Hn & Hc & Hp & Hst).
  set (p2 := dispatch_loop _ _ _) in *.
  exists (_pollSockets p2), new. split_and!; [done|done|].
  unfold wake_phase, wake_revents. rewrite Hp.
  destruct (N.ltb_spec 0 (wakeup_pipe p)) as [_|]; [|lia].
  change (POLLIN =? 0) with false. cbv iota.
  by rewrite Hr, Hl, Hn, Hc, Hst, <- app_assoc.
Qed.

Lemma dispatched_by_index_elem (ps0 : list Sock) (pollFds : list Z)
    (new : list (PollEvent Sock Fn)) (sock : Sock) (revents : Z) :
  Forall (dispatched_by_index ps0 pollFds) new ->
  Dispatched sock revents ∈ new -> sock ∈ ps0.
Proof.
  intros Hf Hin. rewrite Forall_forall in Hf.
  destruct (Hf _ Hin) as (i & sock' & ev & Heq & Hi & _).
  injection Heq as -> ->. by eapply list_elem_of_lookup_2.
Qed.

Lemma wakeup_pipe_positive (p : Poll) : (0 < wakeup_pipe (wakeup p))%N.
Proof. unfold wakeup, pipe_capacity. simpl. lia. Qed.

(** X24: a socket handed to [insertNewSocket] is among the polled
    sockets after the next [poll], which is woken for it and leaves no new
    socket waiting; when it was not polled before, that [poll] has not
    called its [handlePoll] yet. *)
Theorem insertNewSocket_polled_next (sock : Sock) (pollFds : list Z) (p : Poll) :
  sock ∉ _pollSockets p ->
  let p' := poll pollFds (insertNewSocket (Some sock) p) in
  sock ∈ _pollSockets p' /\ _newSockets p' = [] /\
  exists new, poll_log p' = poll_log p ++ new /\
              forall revents, Dispatched sock revents ∉ new.
Proof.
  intros Hnot p'. subst p'. unfold insertNewSocket.
  set (p0 := mkSocketPoll _ _ _ _ _ _ _).
  destruct (poll_woken pollFds (wakeup p0) (wakeup_pipe_positive p0))
    as (kept & new & Hs & Hf & ->). simpl.
  split_and!; [set_solver|done|].
  eexists. split; [done|]. intros revents.
  rewrite !elem_of_app, list_elem_of_fmap, list_elem_of_singleton.
  intros [Hin|[(fn & Heq & _)|Heq]]; [|done..].
  apply Hnot. apply (dispatched_by_index_elem _ _ _ _ _ Hf) in Hin.
  eapply elem_of_sublist; [done|]. apply release_loop_sublist.
Qed.

(** X25: a callback handed to [addCallback] is invoked by the next
    [poll], after the [handlePoll] calls of that round and the callbacks
    added before it, just before [wakeupHook]; no callback is left to be
    invoked again. *)
Theorem addCallback_invoked_in_order (fn : Fn) (pollFds : list Z) (p : Poll) :
  let p' := poll pollFds (addCallback fn p) in
  _newCallbacks p' = [] /\
  exists new,
    Forall (dispatched_by_index (_pollSockets (setupPollFds p)) pollFds) new /\
    poll_log p' =
      poll_log p ++ new ++ (Invoked <$> _newCallbacks p) ++ [Invoked fn; WakeupHook].
Proof.
  intros p'. subst p'. unfold addCallback.
  set (p0 := mkSocketPoll _ _ _ _ _ _ _).
  destruct (poll_woken pollFds (wakeup p0) (wakeup_pipe_positive p0))
    as (kept & new & Hs & Hf & ->). simpl.
  split; [done|]. exists new. split; [done|].
  by rewrite fmap_app, <- !app_assoc.
Qed.

(** X26: when no socket is polled twice, a socket handed to
    [releaseSocket] that is not waiting among the new sockets is not
    polled after the next [poll], which has not called its [handlePoll]
    and leaves no socket to release. *)
Theorem releaseSocket_effective (sock : Sock) (pollFds : list Z) (p : Poll) :
  NoDup (_pollSockets p) -> sock ∉ _newSockets p ->
  let p' := poll pollFds (releaseSocket (Some sock) p) in
  (sock ∉ _pollSockets p') /\ _relSockets p' = [] /\
  exists new, poll_log p' = poll_log p ++ new /\
              forall revents, Dispatched sock revents ∉ new.
Proof.
  intros Hnd Hnew p'. subst p'. unfold releaseSocket.
  set (p0 := mkSocketPoll _ _ _ _ _ _ _).
  destruct (poll_woken pollFds (wakeup p0) (wakeup_pipe_positive p0))
    as (kept & new & Hs & Hf & ->). simpl.
  assert (sock ∉ _pollSockets (setupPollFds (wakeup p0))) as Hgone.
  { simpl. rewrite release_loop_filter, take_ge by done.
    rewrite list_elem_of_filter. simpl. intros [Hrel _]. apply Hrel.
    apply elem_of_app. right. by apply list_elem_of_singleton. }
  split_and!; [|done|].
  - rewrite elem_of_app. intros [Hin|Hin]; [|done].
    apply Hgone. by eapply elem_of_sublist.
  - eexists. split; [done|]. intros revents.
    rewrite !elem_of_app, list_elem_of_fmap, list_elem_of_singleton.
    intros [Hin|[(fn & Heq & _)|Heq]]; [|done..].
    apply Hgone. by apply (dispatched_by_index_elem _ _ _ _ _ Hf) in Hin.
Qed.

Lemma poll_step_pending (p : Poll) (o : PollOp Sock Fn) :
  ((wakeup_pipe p = 0)%N -> _newSockets p = [] /\ _newCallbacks p = []) ->
  (wakeup_pipe (poll_step p o) = 0)%N ->
  _newSockets (poll_step p o) = [] /\ _newCallbacks (poll_step p o) = [].
Proof.
  intros Hinv. destruct o as [[sock|]|[sock|]|fn| |pollFds]; simpl;
    try done; try (unfold pipe_capacity; lia).
  destruct (N.eq_dec (wakeup_pipe p) 0) as [H0|Hpos].
  - destruct (Hinv H0) as [Hn Hc]. intros _. unfold poll. cbv zeta.
    destruct (poll_before_wake pollFds p) as (_ & _ & _ & Hn' & Hc' & Hp & _).
    set (p2 := dispatch_loop _ _ _) in *.
    unfold wake_phase, wake_revents. rewrite Hp, H0. simpl. by rewrite Hn', Hc'.
  - destruct (poll_woken pollFds p) as (kept & new & _ & _ & ->); [lia|]. done.
Qed.

(** X27: in every state a poll gets into by insertions, releases,
    callbacks, stops and polls, a new socket or a callback that is waiting
    has a byte waiting for it in the wake-up pipe: when the pipe is empty,
    nothing is waiting. *)
Theorem pending_work_wakes_poll (ops : list (PollOp Sock Fn)) :
  (wakeup_pipe (poll_run ops) = 0)%N ->
  _newSockets (poll_run ops) = [] /\ _newCallbacks (poll_run ops) = [].
Proof.
  unfold poll_run. induction ops as [|o ops IH] using rev_ind; [done|].
  rewrite foldl_app. simpl. by apply poll_step_pending.
Qed.

Lemma poll_step_stopped (p : Poll) (o : PollOp Sock Fn) :
  _stop p = true -> _stop (poll_step p o) = true.
Proof.
  intros Hst. destruct o as [[sock|]|[sock|]|fn| |pollFds]; simpl; try done.
  unfold poll. cbv zeta.
  destruct (poll_before_wake pollFds p) as (_ & _ & _ & _ & _ & _ & Hst').
  set (p2 := dispatch_loop _ _ _) in *. unfold wake_phase.
  destruct (_ =? 0); simpl; congruence.
Qed.

(** X28: once [stop] has been called, [continuePolling] is false, and
    stays false whatever is done to the poll afterwards. *)
Theorem stop_is_final (p : Poll) (ops : list (PollOp Sock Fn)) :
  continuePolling (foldl poll_step (stop p) ops) = false.
Proof.
  unfold continuePolling.
  enough (_stop (foldl poll_step (stop p) ops) = true) as -> by done.
  induction ops as [|o ops IH] using rev_ind; [done|].
  rewrite foldl_app. simpl. by apply poll_step_stopped.
Qed.

End PollFacts.

(** ** The properties on the scenarios *)

Import CxxString Queue TileDescModel Scenario.

Lemma put_deduplicates_witness :
  let s := run [OpPut S1_first] in
  let q' := _queue (step s (OpPut S1_second)) in
  filter (fun e => tile_key e = tile_key S1_second) q' = [S1_second] /\
  exists i, _queue s !! i = Some S1_first /\
    q' = (if priority (_cursorPositions s) S1_second
          then fun q1 => S1_second :: delete i q1 else id)
           (<[i := S1_second]> (_queue s)).
Proof.
  destruct put_deduplicates as (Hone & Hreplaced & _).
  split.
  - apply (Hone [OpPut S1_first] S1_second). left. reflexivity.
  - apply (Hreplaced [OpPut S1_first] S1_first S1_second).
    + left. reflexivity.
    + left. reflexivity.
    + reflexivity.
    + vm_compute. left.
Defined.

Lemma put_canceltiles_witness :
  TileQueue_put_impl ∅ "canceltiles" S2_queue =
    "canceltiles" ::
      filter (fun v => ~ (String.prefix "tile " v = true /\ find v "id=" = None)) S2_queue.
Proof. apply (put_canceltiles ∅ S2_queue). reflexivity. Defined.

(** S2: after [canceltiles] the preview tile alone is left behind it. *)
Example S2_cancel :
  _queue (run (OpPut <$> S2_queue ++ ["canceltiles"])) =
    ["canceltiles"; "tile part=0 tileposx=256 tileposy=0 id=preview ver=1"].
Proof. vm_compute. reflexivity. Qed.

(** What [remove_if] leaves of a queue with two matching payloads, when a
    payload moved from is left empty: the payloads that do not match come
    first, and one that matches is still there. *)
Example remove_if_leaves_matches :
  MessageQueue_remove_if (String.prefix "b") ["a"; "b"; "c"; "b"; "d"] =
    ["a"; "c"; "d"; "b"; ""].
Proof. vm_compute. reflexivity. Qed.

Lemma priority_placement_witness :
  let s := run [OpCursors {[0 := S3_cursor]}; OpPut S3_T1; OpPut S3_T2] in
  exists q1, MessageQueue_get_impl (_queue s) = Some (S3_T2, q1) /\
             MessageQueue_get_impl q1 = Some (S3_T1, []).
Proof.
  apply (proj2 (proj2 (proj2 priority_placement)) 0 S3_T1 S3_T2).
  - reflexivity.
  - reflexivity.
  - vm_compute. discriminate.
Defined.

Lemma reprioritize_moves_first_witness :
  reprioritize S4_cursor [S4_A; S4_B; S4_C] = [S4_C; S4_A; S4_B] /\
  reprioritize S4_cursor (reprioritize S4_cursor [S4_A; S4_B; S4_C]) =
    reprioritize S4_cursor [S4_A; S4_B; S4_C].
Proof.
  destruct (reprioritize_moves_first S4_cursor [S4_A; S4_B; S4_C])
    as (_ & Hmove & Hidem).
  split; [|exact Hidem].
  apply (Hmove 2%nat S4_C).
  - reflexivity.
  - reflexivity.
  - intros k e' Hk. destruct k as [|[|k]]; [| |lia]; intros [= <-]; reflexivity.
Defined.

Lemma dedup_scan_guard_witness :
  TileQueue_put_impl ∅ "tilecombine part=0 tileposx=0,256 ver=2"
                     ["status"; "tilecombine part=0 tileposx=0,256 ver=1"] =
    ["status"; "tilecombine part=0 tileposx=0,256 ver=2"] /\
  tile_prefix_test "tilecombine part=0 ver=1" = true /\
  tilecombine_test "tilecombine part=0 ver=1" = false.
Proof.
  destruct dedup_scan_guard as (_ & _ & _ & Hcombine & Hprefix & Hnever).
  split_and!; [|apply Hprefix; reflexivity|apply Hnever].
  apply (Hcombine ∅ "tilecombine part=0 tileposx=0,256 ver=2"
                  ["status"; "tilecombine part=0 tileposx=0,256 ver=1"]
                  1%nat "tilecombine part=0 tileposx=0,256 ver=1").
  - reflexivity.
  - reflexivity.
  - reflexivity.
  - intros k e' Hk. destruct k as [|k]; [|lia]. intros [= <-]. vm_compute. discriminate.
Defined.

Import Net EchoModel.

(** C6: the claim fails on the poll of [pollingThread]: with the timeout
    5000 the value handed to the system call is 5000, the count of
    milliseconds. *)
Lemma poll_timeout_not_microseconds :
  ~ (forall timeoutMaxMs : Z,
        0 <= timeoutMaxMs -> poll_timeout_arg poll_now [] timeoutMaxMs <> timeoutMaxMs).
Proof. intros Hclaim. apply (Hclaim poll_timeoutMaxMs); [done|reflexivity]. Qed.

Lemma poll_timeout_is_milliseconds_witness :
  poll_timeout_arg poll_now [Socket_updateTimeout] poll_timeoutMaxMs = poll_timeoutMaxMs.
Proof.
  apply poll_timeout_is_milliseconds.
  - vm_compute. split; [discriminate|reflexivity].
  - vm_compute. split; discriminate.
  - repeat constructor.
Defined.

Lemma echo_drains : drains.
Proof.
  intros w [[|c rest] out]; simpl; lia.
Defined.

Lemma incoming_loop_while_changing_witness :
  let s := mkState (mkStreamSocket (mkBuffers (String.list_ascii_of_string "ab") []) false)
                   silent_world [] in
  invoked_while_shrinking None s (incoming_loop (S (in_size s)) 0 s).
Proof.
  intros s. apply (proj1 (proj2 incoming_loop_while_changing) echo_drains s).
Defined.

(** C7: the claim fails when [handlePoll] is invoked again on a socket it
    has closed: two invocations with [POLLHUP], then the destructor, call
    [onDisconnect] twice. *)
Lemma handlePoll_twice_disconnects_twice :
  exists s, unguarded_life 1 [POLLHUP; POLLHUP] silent_world = Ret tt s /\
            calls s = [OnDisconnect; OnDisconnect].
Proof. eexists. split; vm_compute; reflexivity. Qed.

(** S6: the peer closes, the next round reads the end of file, and the
    handler is told once; the run returns. *)
Example S6_clean_close :
  exists s, polled_life 4 [POLLIN; POLLIN] S6_world = Ret tt s /\
            calls s = [HandleIncomingMessage; HandleIncomingMessage;
                       HandleIncomingMessage; OnDisconnect] /\
            _closed (socket s) = true.
Proof. eexists. split_and!; vm_compute; reflexivity. Qed.


(** ** Further properties, on the scenarios *)

Import CxxString Queue TileDescModel Scenario.

Lemma remove_if_unmatched_first_witness :
  MessageQueue_remove_if (String.prefix "b") ["a"; "c"] = ["a"; "c"].
Proof.
  apply (proj2 (remove_if_unmatched_first (String.prefix "b") ["a"; "c"])).
  repeat constructor.
Defined.

Lemma put_plain_is_fifo_witness :
  foldl (fun q value => TileQueue_put_impl ∅ value q) ["status"] ["uno"; "key"] =
    ["status"; "uno"; "key"].
Proof.
  apply (put_plain_is_fifo ∅ ["uno"; "key"] ["status"]).
  repeat constructor; vm_compute; congruence.
Defined.

Lemma put_length_witness :
  length (TileQueue_put_impl ∅ S3_T1 [S3_T2]) = 2%nat.
Proof.
  apply (proj2 (proj2 (put_length ∅ S3_T1 [S3_T2]))).
  - vm_compute. discriminate.
  - intros e ->%list_elem_of_singleton. vm_compute. discriminate.
Defined.

Lemma put_priority_goes_first_witness :
  head (TileQueue_put_impl {[0 := S3_cursor]} S3_T2 [S3_T1]) = Some S3_T2 /\
  MessageQueue_get_impl (TileQueue_put_impl {[0 := S3_cursor]} S3_T2 [S3_T1]) =
    Some (S3_T2, tail (TileQueue_put_impl {[0 := S3_cursor]} S3_T2 [S3_T1])).
Proof. apply (put_priority_goes_first {[0 := S3_cursor]} S3_T2 [S3_T1]). reflexivity. Defined.

Lemma reprioritize_permutes_witness :
  tile_intersects S4_C S4_cursor = true \/
  reprioritize S4_cursor [S4_A; S4_B; S4_C] = [S4_A; S4_B; S4_C].
Proof.
  apply (proj2 (proj2 (reprioritize_permutes S4_cursor [S4_A; S4_B; S4_C])) S4_C).
  reflexivity.
Defined.

Lemma canceltiles_purges_witness : cancelled_tile "canceltiles" = false.
Proof. apply (proj1 (canceltiles_purges S2_queue)). vm_compute. left. Defined.

Lemma priority_grows_with_cursors_witness :
  priority (<[1 := S4_cursor]> {[0 := S3_cursor]}) S3_T2 = true.
Proof.
  apply (priority_grows_with_cursors {[0 := S3_cursor]}).
  - apply insert_subseteq. reflexivity.
  - reflexivity.
Defined.

Lemma reachable_tiles_have_distinct_keys_witness : tile_key S3_T1 <> tile_key S3_T2.
Proof.
  apply (reachable_tiles_have_distinct_keys [OpPut S3_T1; OpPut S3_T2] 0 1).
  - reflexivity.
  - reflexivity.
  - reflexivity.
  - lia.
Defined.

Lemma put_tile_again_changes_nothing_witness :
  _queue (step (step (run []) (OpPut S1_first)) (OpPut S1_first)) =
    _queue (step (run []) (OpPut S1_first)).
Proof. apply (put_tile_again_changes_nothing [] S1_first). reflexivity. Defined.

Import Net EchoModel.

Lemma send_queues_witness :
  send 1 (String.list_ascii_of_string "hi") false (ctor silent_world) =
    Ret tt (mkState (mkStreamSocket (mkBuffers [] (String.list_ascii_of_string "hi")) false)
                    silent_world []).
Proof.
  apply (proj1 (proj2 (send_queues 1 (String.list_ascii_of_string "hi") false
                         (ctor silent_world)))).
  reflexivity.
Defined.

Lemma send_asks_for_POLLOUT_witness :
  Z.land (getPollEvents
            (mkState (mkStreamSocket (mkBuffers [] (String.list_ascii_of_string "hi")) false)
                     silent_world []))
         POLLOUT = POLLOUT.
Proof.
  apply (send_asks_for_POLLOUT 1 (String.list_ascii_of_string "hi") (ctor silent_world)).
  - discriminate.
  - reflexivity.
Defined.

Lemma handlePoll_result_is_closed_flag_witness :
  let s' := mkState (mkStreamSocket (mkBuffers [] []) true)
                    (mkWorld [] false EAGAIN) [OnDisconnect] in
  (SOCKET_CLOSED = SOCKET_CLOSED <-> _closed (socket s') = true) /\
  (_closed (socket (ctor silent_world)) = true -> SOCKET_CLOSED = SOCKET_CLOSED) /\
  (SOCKET_CLOSED = CONTINUE ->
   OnDisconnect ∉ drop (length (calls (ctor silent_world))) (calls s')).
Proof.
  intros s'. apply (handlePoll_result_is_closed_flag 1 POLLHUP (ctor silent_world) s').
  vm_compute. reflexivity.
Defined.

Lemma handlePoll_closes_on_hangup_or_eof_witness :
  let s' := mkState (mkStreamSocket (mkBuffers [] []) true)
                    (mkWorld [] true 0) [OnDisconnect] in
  SOCKET_CLOSED = SOCKET_CLOSED /\ _closed (socket s') = true /\
  last (calls s') = Some OnDisconnect.
Proof.
  intros s'.
  apply (handlePoll_closes_on_hangup_or_eof 1 POLLIN (ctor (mkWorld [] true 0)) s').
  - vm_compute. reflexivity.
  - right. apply (eof_read _ (mkWorld [] true 0) []). reflexivity.
Defined.

Lemma poll_timeout_only_contracts_witness :
  0 <= poll_timeout_arg poll_now [fun t => Z.min t (poll_now + 1000000)] poll_timeoutMaxMs
    <= poll_timeoutMaxMs.
Proof.
  apply poll_timeout_only_contracts.
  - vm_compute. split; [discriminate|reflexivity].
  - vm_compute. split; discriminate.
  - apply Forall_cons_2; [|apply Forall_nil_2]. intros t Ht. unfold poll_now in *. lia.
Defined.

Import PollModel.

Lemma setupPollFds_releases_witness :
  let p : SocketPoll Z string := mkSocketPoll [3; 4; 5] [] [4] [] false 1 [] in
  _pollSockets (setupPollFds p) = filter (fun sock => sock ∉ _relSockets p) (_pollSockets p).
Proof.
  intros p. apply (proj1 (proj2 (proj2 (setupPollFds_releases p)))).
  apply (bool_decide_unpack _). vm_compute. reflexivity.
Defined.

Lemma dispatch_without_release_witness :
  let p : SocketPoll Z string := mkSocketPoll [3; 4; 5] [] [] [] false 0 [] in
  let pollFds := [POLLIN; POLLHUP; 0] in
  let p' := dispatch_loop (length (_pollSockets p)) pollFds p in
  _pollSockets p' =
    (filter (fun sr => stays_polled sr = true) (zip (_pollSockets p) pollFds)).*1 /\
  poll_log p' =
    poll_log p ++ reverse ((fun sr => Dispatched sr.1 sr.2) <$>
                             filter (fun sr => sr.2 <> 0) (zip (_pollSockets p) pollFds)).
Proof.
  intros p pollFds. apply (dispatch_without_release pollFds p); reflexivity.
Defined.

Lemma insertNewSocket_polled_next_witness :
  let p' : SocketPoll Z string := poll [] (insertNewSocket (Some 7) new_poll) in
  7 ∈ _pollSockets p' /\ _newSockets p' = [] /\
  exists new, poll_log p' = poll_log (new_poll (Sock:=Z) (Fn:=string)) ++ new /\
              forall revents, Dispatched 7 revents ∉ new.
Proof. apply (insertNewSocket_polled_next 7 [] new_poll). apply not_elem_of_nil. Defined.

Lemma releaseSocket_effective_witness :
  let p : SocketPoll Z string := mkSocketPoll [3; 4] [] [] [] false 0 [] in
  let p' := poll [POLLIN; POLLIN] (releaseSocket (Some 4) p) in
  (4 ∉ _pollSockets p') /\ _relSockets p' = [] /\
  exists new, poll_log p' = poll_log p ++ new /\
              forall revents, Dispatched 4 revents ∉ new.
Proof.
  intros p. apply (releaseSocket_effective 4 [POLLIN; POLLIN] p).
  - apply (bool_decide_unpack _). vm_compute. reflexivity.
  - apply not_elem_of_nil.
Defined.

Lemma pending_work_wakes_poll_witness :
  let ops : list (PollOp Z string) := [DoInsert (Some 3); DoPoll []] in
  _newSockets (poll_run ops) = [] /\ _newCallbacks (poll_run ops) = [].
Proof. intros ops. apply (pending_work_wakes_poll ops). reflexivity. Defined.

Import GrowModel.

(** C8: the claim fails for a handler that grows the input buffer: started
    on one byte, the handler is invoked a second and a third time although
    the buffer has not shrunk, since the loop goes on while the size
    changes. *)
Lemma growing_handler_invoked_again :
  let s := mkState (mkStreamSocket (mkBuffers ["a"%char] []) false) GrowModel.still [] in
  exists s', incoming_loop 4 0 s = Ret tt s' /\
             calls s' = [HandleIncomingMessage; HandleIncomingMessage;
                         HandleIncomingMessage] /\
             ~ invoked_while_shrinking None s (incoming_loop 4 0 s).
Proof.
  intros s. eexists. split_and!; [vm_compute; reflexivity|reflexivity|].
  intros Hclaim. vm_compute in Hclaim.
  inversion Hclaim as [| |prev s0 s1 r _ _ Hcall Hnext|]. subst. clear Hclaim.
  vm_compute in Hcall. injection Hcall as <-.
  inversion Hnext.
  match goal with
  | Hshrunk : forall p, Some _ = Some p -> (_ < p)%nat |- _ =>
      specialize (Hshrunk 1%nat eq_refl); vm_compute in Hshrunk; lia
  end.
Qed.
